(** * AutoShade Studio: the per-image processing pipeline

    A shallow embedding of the TypeScript sources
      - [types.ts]                    (status, mode and option enumerations,
                                       [ProcessedImage])
      - [services/geminiService.ts]   ([fileToBase64], [processCarImage],
                                       [correctImage])
      - [App.tsx]                     ([getOutputFilename],
                                       [handleProcessImages],
                                       [handleCorrectImage])
      - [components/ImageCard.tsx]    (when the Refine control is rendered,
                                       [handleCorrectSubmit])
    followed by the properties of the pipeline that are checked on it.

    Conventions.  JavaScript strings are [string]; [null]/[undefined] and
    optional fields are [option]; a thrown value is an [exn]; an [async]
    function is a computation that logs the requests it sends to the hosted
    model and ends by returning or throwing.  React state is a record, and
    each [setProcessedImages (prev => ...)] is a function on the list of
    processed images that is applied to whatever the list is at that time. *)

From Stdlib Require Import Ascii.
From stdpp Require Import strings list pretty.

Local Open Scope string_scope.
Local Open Scope list_scope.

(** ** JavaScript string helpers *)

Module Js.

Definition nl : string := String "010"%char EmptyString.
Definition dquote : string := String "034"%char EmptyString.

(** Truthiness of a string: every string but the empty one. *)
Definition truthy (s : string) : bool :=
  match s with
  | EmptyString => false
  | String _ _ => true
  end.

(** [o || d] for an optional string [o]. *)
Definition or_else (o : option string) (d : string) : string :=
  match o with
  | Some s => if truthy s then s else d
  | None => d
  end.

(** Truthiness of [string | null | undefined]. *)
Definition truthy_opt (o : option string) : bool :=
  match o with
  | Some s => truthy s
  | None => false
  end.

(** [s.startsWith(p)] *)
Definition startsWith (p s : string) : bool := String.prefix p s.

(** [s.split(c)] for a one-character separator: the pieces between the
    separators, in order; never the empty list. *)
Fixpoint split (c : ascii) (s : string) : list string :=
  match s with
  | EmptyString => [EmptyString]
  | String a rest =>
      if Ascii.eqb a c then EmptyString :: split c rest
      else match split c rest with
           | piece :: pieces => String a piece :: pieces
           | [] => [String a EmptyString]
           end
  end.

(** [xs.join(sep)] *)
Fixpoint join (sep : string) (xs : list string) : string :=
  match xs with
  | [] => EmptyString
  | [x] => x
  | x :: rest => x +:+ sep +:+ join sep rest
  end.

(** [xs.pop()]: the last element (if any) and the array that is left. *)
Definition pop (xs : list string) : option string * list string :=
  (last xs, removelast xs).

(** [s.includes(sub)] *)
Fixpoint includes (sub s : string) : bool :=
  String.prefix sub s ||
  match s with
  | EmptyString => false
  | String _ rest => includes sub rest
  end.

(** The lines of a text. *)
Definition lines (s : string) : list string := split "010"%char s.

End Js.

(** ** types.ts *)

Module Types.

Inductive ProcessingStatus := pending | processing | done | error.

Inductive ProcessingMode :=
  full | partial_wall | turntable_tint | tint_turntable_only.

Inductive FloorEffect := fe_none | fe_desaturate | fe_red | fe_yellow.

Inductive TurntableTint := tt_none | tt_red | tt_yellow.

#[global] Instance ProcessingStatus_eq_dec : EqDecision ProcessingStatus.
Proof. solve_decision. Defined.
#[global] Instance ProcessingMode_eq_dec : EqDecision ProcessingMode.
Proof. solve_decision. Defined.
#[global] Instance FloorEffect_eq_dec : EqDecision FloorEffect.
Proof. solve_decision. Defined.
#[global] Instance TurntableTint_eq_dec : EqDecision TurntableTint.
Proof. solve_decision. Defined.

(** The string a tint is in a template literal. *)
Definition TurntableTint_str (t : TurntableTint) : string :=
  match t with
  | tt_none => "none"
  | tt_red => "red"
  | tt_yellow => "yellow"
  end.

(** [Partial<ProcessingOptions>]: every field may be missing. *)
Record ProcessingOptions := {
  floorEffect : option FloorEffect;
  matchReflections : option bool;
  turntableTint : option TurntableTint;
}.

(** A browser [File]: its name, its media type, its content, kept as the
    base64 text that [FileReader.readAsDataURL] puts after the comma, and
    whether a [FileReader] can read it.  A file built in memory can be read;
    a file picked from the disk cannot once it was moved or its permission
    was lost, and the reader then fires [onerror]. *)
Record File := {
  name : string;
  type : string;
  base64 : string;
  readable : bool;
}.

Record ProcessedImage := {
  id : string;
  originalFile : File;
  originalUrl : string;
  processedUrl : option string;
  status : ProcessingStatus;
  error_ : option string;
}.

End Types.

Export Types.

(** ** The @google/genai client, as the service uses it *)

Module GenAI.

(** *** The hosted model's request and response *)

Record Blob := { mimeType : string; data : string }.

(** A part is [{ text }] or [{ inlineData }]. *)
Record Part := {
  inlineData : option Blob;
  text : option string;
}.

Definition textPart (t : string) : Part :=
  {| inlineData := None; text := Some t |}.
Definition inlinePart (b : Blob) : Part :=
  {| inlineData := Some b; text := None |}.

(** A part of an answer.  The SDK declares every field optional, so a part
    of an answer is [Complete] when its inline data, if it has any, comes
    with its [mimeType], and [Typeless] when it has inline data without one
    (only its text, if it has any, is then of use).  Inline data without
    [data] is the complete part whose data is the text [undefined], which is
    how a template literal renders it. *)
Inductive ResponsePart := Complete (part : Part) | Typeless (text : option string).

(** The [parts] of a content and the [content] of a candidate are optional
    as well: the candidate of a blocked answer has no content. *)
Record Content := { parts : option (list ResponsePart) }.
Record Candidate := { content : option Content }.

(** The response: its candidates, possibly undefined. *)
Record GenerateContentResponse := {
  candidates : option (list Candidate);
}.

(** [response.text], the accessor of the SDK: the texts of the parts of the
    first candidate, joined; undefined when none of these parts has a text,
    and so when the first candidate has no content or no parts.  (Parts
    marked as thoughts, which the accessor skips, are not modelled.) *)
Definition partText (part : ResponsePart) : option string :=
  match part with
  | Complete part => text part
  | Typeless text => text
  end.

Definition response_text (response : GenerateContentResponse) : option string :=
  match default [] (candidates response) with
  | candidate :: _ =>
      match omap partText (default [] (content candidate ≫= parts)) with
      | [] => None
      | texts => Some (foldr String.append EmptyString texts)
      end
  | [] => None
  end.

Inductive Modality := IMAGE | TEXT.

Record Request := {
  model : string;
  contents : list Part;
  responseModalities : list Modality;
}.

(** A thrown value: an [Error] with its message, or anything else. *)
Inductive exn := Error (message : string) | NotAnError.

(** How a call to the hosted model ends. *)
Inductive reply := Resolved (r : GenerateContentResponse) | Rejected (e : exn).

(** *** Asynchronous computations

    The outcome of the computation and the requests sent on the way. *)

Inductive outcome (A : Type) := Returns (a : A) | Throws (e : exn).
Arguments Returns {A} a.
Arguments Throws {A} e.

Definition Async (A : Type) : Type := outcome A * list Request.

Definition ret {A} (a : A) : Async A := (Returns a, []).
Definition throw {A} (e : exn) : Async A := (Throws e, []).
Definition bind {A B} (m : Async A) (k : A → Async B) : Async B :=
  match m with
  | (Returns a, sent) => let '(o, sent') := k a in (o, sent ++ sent')
  | (Throws e, sent) => (Throws e, sent)
  end.

Notation "'await' x ':=' m 'in' k" := (bind m (λ x, k))
  (at level 10, x name, m at level 200, k at level 200).

(** [ai.models.generateContent(request)] against a model that answers
    [api request]. *)
Definition generateContent (api : Request → reply) (request : Request)
  : Async GenerateContentResponse :=
  match api request with
  | Resolved r => (Returns r, [request])
  | Rejected e => (Throws e, [request])
  end.

Definition result {A} (m : Async A) : outcome A := fst m.
Definition networkCalls {A} (m : Async A) : list Request := snd m.

End GenAI.

(** ** services/geminiService.ts *)

Export GenAI.

(** *** fileToBase64

    When the [FileReader] has read the file, the promise resolves with the
    file's type and with what follows the first comma of the data URL; when
    it fails, the promise is rejected with the event that [onerror] gets,
    which is no [Error].

    In the data URL the reader writes the file's type when it is a media
    type, [type/subtype] of token characters with parameters of token
    characters after it, and [application/octet-stream] otherwise, for an
    empty type in particular. *)

Definition isTokenChar (a : ascii) : bool :=
  let n := nat_of_ascii a in
  ((48 <=? n) && (n <=? 57) || (65 <=? n) && (n <=? 90)
   || (97 <=? n) && (n <=? 122))%nat
  || existsb (Ascii.eqb a) (String.list_ascii_of_string "!#$%&'*+-.^_`|~").

Definition isToken (s : string) : bool :=
  Js.truthy s && forallb isTokenChar (String.list_ascii_of_string s).

Definition isParameter (s : string) : bool :=
  forallb (λ a, isTokenChar a || Ascii.eqb a "="%char) (String.list_ascii_of_string s).

Definition isMediaType (type : string) : bool :=
  match Js.split "/"%char type with
  | [type; rest] =>
      match Js.split ";"%char rest with
      | subtype :: parameters =>
          isToken type && isToken subtype && forallb isParameter parameters
      | [] => false
      end
  | _ => false
  end.

Definition mediaType (type : string) : string :=
  if isMediaType type then type else "application/octet-stream".

(** [reader.result] once the file is read. *)
Definition readAsDataURL (file : File) : string :=
  "data:" +:+ mediaType (type file) +:+ ";base64," +:+ base64 file.

Definition fileToBase64 (file : File) : Async Blob :=
  if readable file then
    let result := readAsDataURL file in
    let mimeType := type file in
    let data := default "undefined" (Js.split ","%char result !! 1%nat) in
    ret {| mimeType := mimeType; data := data |}
  else throw NotAnError.

(** *** The prompts of processCarImage

    [buildPrompt] is the part of [processCarImage] that assigns [prompt]:
    one template per mode, and for [partial-wall] and [turntable-tint] the
    optional clauses appended under a running [instructionCounter]. *)

Module Prompt.

(** A template literal, line by line. *)
Definition template (ls : list string) : string := Js.join Js.nl ls.

(** [`${x}`] for an optional tint. *)
Definition interpolate (t : option TurntableTint) : string :=
  match t with
  | Some t => TurntableTint_str t
  | None => "undefined"
  end.

Definition tintOnly (tint : option TurntableTint) : string := template [
  "Your task is to perform a highly specific and subtle edit on the provided image of a car on a turntable. Follow these instructions precisely:";
  "1. Identify the circular rotating platform/turntable beneath the car.";
  "2. Apply a transparent " +:+ interpolate tint +:+ " color overlay with exactly 15% opacity ONLY to the top surface of the turntable. The turntable's original texture, details, and any shadows on it must remain clearly visible underneath the color tint.";
  "3. CRITICAL: You must NOT change anything else in the image. The car, the shadows, the walls, and the floor surrounding the turntable must remain completely untouched and identical to the original image.";
  "The final output must be a single, high-resolution image that is identical to the input except for the subtle color tint on the turntable. Do not include any text, borders, or annotations."
].

Definition fullText : string := template [
  "Analyze the two images provided. The first image contains a car. The second image is a new background. Your task is to perform the following steps: ";
  "1. Accurately isolate the car from its original background in the first image. ";
  "2. Place the isolated car onto the new background provided in the second image. ";
  "3. Generate a natural and realistic shadow for the car on the new background, making sure the shadow's direction, softness, and intensity are consistent with the lighting conditions of the background. ";
  "4. Blend the car seamlessly into the new environment to create a photorealistic composite image. ";
  "The final output must be a single, high-resolution composite image, aiming for 3000 pixels on the longest side. Do not include any text in the output."
].

Definition partialWallBase : string := template [
  "Analyze the two images provided. The first image contains a car in its original setting (e.g., a studio). The second image is a new background/scene. Your task is to create a composite image by following these steps:";
  "1. In the first image, identify the car and the horizontal line that separates the floor from the wall/background.";
  "2. Keep the original floor from the first image. The car and its shadow on the floor must be preserved perfectly.";
  "3. Replace the original background area above the floor (the wall) with the new background from the second image. The new background should be realistically scaled and perspectively matched to the scene.";
  "4. Create a seamless, natural-looking transition between the retained floor and the new upper background.";
  "5. The car should remain in its original position on its original floor, but now set against the new background. Ensure the lighting on the car is consistent with the new background environment."
].

Definition floorDesaturate : string :=
  "The original floor that is kept must be converted to black and white (fully desaturated). This is a critical requirement.".
Definition floorRed : string :=
  "Apply a transparent red color overlay with 15% opacity to the entire floor area that is being kept. The original floor texture and shadows must remain clearly visible beneath this subtle color tint. This is a critical requirement.".
Definition floorYellow : string :=
  "Apply a transparent yellow color overlay with 15% opacity to the entire floor area that is being kept. The original floor texture and shadows must remain clearly visible beneath this subtle color tint. This is a critical requirement.".
Definition reflections : string :=
  "Crucially, you must also meticulously adjust the reflections on the car's bodywork, windows, and wheels to realistically mirror the new background environment. This is a critical requirement for a photorealistic result.".

Definition turntableBase : string := template [
  "Analyze the two images provided. The first image contains a car on a circular rotating platform/turntable. The second image is a new background. Your task is to create a composite image by following these strict steps:";
  "1. Precisely identify and isolate the car and the complete circular turntable it rests on from the original background.";
  "2. Preserve the car and the turntable perfectly.";
  "3. Replace the entire original background, including the floor surrounding the turntable and the walls, with the new background from the second image. The new background must appear seamlessly behind and around the turntable.";
  "4. Generate a natural, realistic shadow for the car on the turntable's surface, ensuring it is consistent with the lighting of the new background.";
  "5. Create a photorealistic composite image."
].

Definition tintRed : string :=
  "CRITICAL INSTRUCTION: Apply a transparent red color overlay with exactly 15% opacity ONLY to the top surface of the turntable. The turntable's original texture, details, and the car's shadow must remain clearly visible underneath this color tint.".
Definition tintYellow : string :=
  "CRITICAL INSTRUCTION: Apply a transparent yellow color overlay with exactly 15% opacity ONLY to the top surface of the turntable. The turntable's original texture, details, and the car's shadow must remain clearly visible underneath this color tint.".

Definition closing : string :=
  "The final output must be a single, high-resolution composite image, aiming for 3000 pixels on the longest side. Do not include any text, borders, or annotations.".

(** [prompt += `\n${instructionCounter}. clause`; instructionCounter++] *)
Definition appendClause (clause : string) (st : string * nat) : string * nat :=
  let '(prompt, instructionCounter) := st in
  (prompt +:+ Js.nl +:+ pretty instructionCounter +:+ ". " +:+ clause,
   S instructionCounter).

Definition partialWall (options : ProcessingOptions) : string :=
  let st := (partialWallBase, 6) in
  let st :=
    match floorEffect options with
    | Some fe_desaturate => appendClause floorDesaturate st
    | Some fe_red => appendClause floorRed st
    | Some fe_yellow => appendClause floorYellow st
    | _ => st
    end in
  let st :=
    match matchReflections options with
    | Some true => appendClause reflections st
    | _ => st
    end in
  fst st +:+ Js.nl +:+ closing.

Definition turntable (options : ProcessingOptions) : string :=
  let st := (turntableBase, 6) in
  let st :=
    match turntableTint options with
    | Some tt_red => appendClause tintRed st
    | Some tt_yellow => appendClause tintYellow st
    | _ => st
    end in
  fst st +:+ Js.nl +:+ closing.

Definition buildPrompt (mode : ProcessingMode) (options : ProcessingOptions)
  : string :=
  match mode with
  | tint_turntable_only => tintOnly (turntableTint options)
  | full => fullText
  | partial_wall => partialWall options
  | turntable_tint => turntable options
  end.

End Prompt.

(** *** Reading the model's response

    The two nested [for ... of] loops with their early [return], and the
    two [throw]s after them.  The loops read [candidate.content.parts] and
    [part.inlineData.mimeType] without a test, so a candidate without
    content or parts, and inline data without a type, end them with a
    [TypeError]. *)

Definition dataUrl (b : Blob) : string :=
  "data:" +:+ mimeType b +:+ ";base64," +:+ data b.

(** [part.inlineData && part.inlineData.mimeType.startsWith('image/')] *)
Definition isImagePart (part : Part) : bool :=
  match inlineData part with
  | Some b => Js.startsWith "image/" (mimeType b)
  | None => false
  end.

(** A [TypeError] is an [Error]; the wording of its message is the
    engine's, here V8's. *)
Definition TypeError (message : string) : exn := Error message.

(** [candidate.content.parts] when [content] is undefined ... *)
Definition contentMissing : exn :=
  TypeError "Cannot read properties of undefined (reading 'parts')".
(** ... [for (const part of undefined)] ... *)
Definition partsMissing : exn :=
  TypeError "candidate.content.parts is not iterable".
(** ... and [part.inlineData.mimeType.startsWith] when [mimeType] is
    undefined. *)
Definition mimeTypeMissing : exn :=
  TypeError "Cannot read properties of undefined (reading 'startsWith')".

(** How the loops end: with the [return], with a [TypeError], or by running
    out of parts. *)
Inductive scanned := Found (url : string) | Faulted (e : exn) | NoImage.

Fixpoint scanParts (ps : list ResponsePart) : scanned :=
  match ps with
  | [] => NoImage
  | Complete part :: rest =>
      match inlineData part with
      | Some b =>
          if Js.startsWith "image/" (mimeType b) then Found (dataUrl b)
          else scanParts rest
      | None => scanParts rest
      end
  | Typeless _ :: _ => Faulted mimeTypeMissing
  end.

Fixpoint scanCandidates (cs : list Candidate) : scanned :=
  match cs with
  | [] => NoImage
  | candidate :: rest =>
      match content candidate with
      | None => Faulted contentMissing
      | Some content =>
          match parts content with
          | None => Faulted partsMissing
          | Some ps =>
              match scanParts ps with
              | NoImage => scanCandidates rest
              | stopped => stopped
              end
          end
      end
  end.

Definition textInsteadOfImage (textResponse : string) : string :=
  "API returned a text response instead of an image: " +:+ textResponse.

Definition noImageGenerated : string := "No image was generated by the API.".

Definition backgroundRequired : string :=
  "A background image is required for this processing mode.".

Definition readResponse (response : GenerateContentResponse) : Async string :=
  match scanCandidates (default [] (candidates response)) with
  | Found url => ret url
  | Faulted e => throw e
  | NoImage =>
      let textResponse := response_text response in
      match textResponse with
      | Some t =>
          if Js.truthy t then throw (Error (textInsteadOfImage t))
          else throw (Error noImageGenerated)
      | None => throw (Error noImageGenerated)
      end
  end.

Definition imageModel : string := "gemini-2.5-flash-image-preview".

Definition request (ps : list Part) : Request :=
  {| model := imageModel; contents := ps; responseModalities := [IMAGE; TEXT] |}.

(** *** processCarImage and correctImage

    [api] is the hosted model behind [ai.models.generateContent]. *)

Section Service.

Variable api : Request → reply.

Definition processCarImage (carImageFile : File)
    (backgroundImageFile : option File) (mode : ProcessingMode)
    (options : ProcessingOptions) : Async string :=
  await carImage := fileToBase64 carImageFile in
  await ps :=
    match mode with
    | tint_turntable_only =>
        let prompt := Prompt.buildPrompt mode options in
        ret [textPart prompt; inlinePart carImage]
    | _ =>
        match backgroundImageFile with
        | None => throw (Error backgroundRequired)
        | Some backgroundImageFile =>
            await backgroundImage := fileToBase64 backgroundImageFile in
            let ps := [inlinePart carImage; inlinePart backgroundImage] in
            let prompt := Prompt.buildPrompt mode options in
            ret (textPart prompt :: ps)
        end
    end in
  await response := generateContent api (request ps) in
  readResponse response.

Definition correctionPrompt (correction : string) : string :=
  Prompt.template [
    "Based on the user's feedback, please refine the provided image. The user's instruction is: " +:+ Js.dquote +:+ correction +:+ Js.dquote +:+ ". ";
    "  ";
    "  Your task is to apply this change subtly and realistically, maintaining the overall quality and composition of the image. ";
    "  ";
    "  The final output must be a single, high-resolution composite image, aiming for 3000 pixels on the longest side. Do not include any text, annotations, or borders. Only return the modified image."
  ].

Definition correctImage (processedImageFile : File) (correction : string)
  : Async string :=
  await processedImage := fileToBase64 processedImageFile in
  let prompt := correctionPrompt correction in
  await response := generateContent api
    (request [textPart prompt; inlinePart processedImage]) in
  readResponse response.

End Service.

(** ** components/ImageCard.tsx *)

(** The Download and Refine controls of a card are rendered under
    [image.status === 'done' && image.processedUrl]. *)
Definition refineOffered (image : ProcessedImage) : bool :=
  bool_decide (status image = done) && Js.truthy_opt (processedUrl image).

(** ** App.tsx *)

Module App.

Definition getOutputFilename (originalName : string) : string :=
  let parts := Js.split "."%char originalName in
  let '(extension, parts) := Js.pop parts in
  let name := Js.join "." parts in
  name +:+ "-processed." +:+ Js.or_else extension "png".

(** *** The component's state

    The [useState] cells that the handlers below read or write.
    ([isProcessing] and [isDragging] only drive the rendering.) *)

Record State := {
  carImages : list File;
  backgroundImage : option File;
  processedImages : list ProcessedImage;
  globalError : option string;
  processingMode : ProcessingMode;
  floorEffect : FloorEffect;
  matchReflections : bool;
  turntableTint : TurntableTint;
}.

Definition initialState : State := {|
  carImages := [];
  backgroundImage := None;
  processedImages := [];
  globalError := None;
  processingMode := full;
  floorEffect := fe_none;
  matchReflections := false;
  turntableTint := tt_none;
|}.

Definition setCarImages (v : list File) (s : State) : State :=
  {| carImages := v; backgroundImage := backgroundImage s;
     processedImages := processedImages s; globalError := globalError s;
     processingMode := processingMode s; floorEffect := floorEffect s;
     matchReflections := matchReflections s; turntableTint := turntableTint s |}.

Definition setBackgroundImage (v : option File) (s : State) : State :=
  {| carImages := carImages s; backgroundImage := v;
     processedImages := processedImages s; globalError := globalError s;
     processingMode := processingMode s; floorEffect := floorEffect s;
     matchReflections := matchReflections s; turntableTint := turntableTint s |}.

(** [setProcessedImages(prev => f(prev))] *)
Definition setProcessedImages (f : list ProcessedImage → list ProcessedImage)
    (s : State) : State :=
  {| carImages := carImages s; backgroundImage := backgroundImage s;
     processedImages := f (processedImages s); globalError := globalError s;
     processingMode := processingMode s; floorEffect := floorEffect s;
     matchReflections := matchReflections s; turntableTint := turntableTint s |}.

Definition setGlobalError (v : option string) (s : State) : State :=
  {| carImages := carImages s; backgroundImage := backgroundImage s;
     processedImages := processedImages s; globalError := v;
     processingMode := processingMode s; floorEffect := floorEffect s;
     matchReflections := matchReflections s; turntableTint := turntableTint s |}.

Definition setFloorEffect (v : FloorEffect) (s : State) : State :=
  {| carImages := carImages s; backgroundImage := backgroundImage s;
     processedImages := processedImages s; globalError := globalError s;
     processingMode := processingMode s; floorEffect := v;
     matchReflections := matchReflections s; turntableTint := turntableTint s |}.

Definition setMatchReflections (v : bool) (s : State) : State :=
  {| carImages := carImages s; backgroundImage := backgroundImage s;
     processedImages := processedImages s; globalError := globalError s;
     processingMode := processingMode s; floorEffect := floorEffect s;
     matchReflections := v; turntableTint := turntableTint s |}.

Definition setTurntableTint (v : TurntableTint) (s : State) : State :=
  {| carImages := carImages s; backgroundImage := backgroundImage s;
     processedImages := processedImages s; globalError := globalError s;
     processingMode := processingMode s; floorEffect := floorEffect s;
     matchReflections := matchReflections s; turntableTint := v |}.

(** [setProcessingMode(v)] together with the effect that resets the options
    the new mode does not use. *)
Definition setProcessingMode (v : ProcessingMode) (s : State) : State :=
  let s :=
    {| carImages := carImages s; backgroundImage := backgroundImage s;
       processedImages := processedImages s; globalError := globalError s;
       processingMode := v; floorEffect := floorEffect s;
       matchReflections := matchReflections s;
       turntableTint := turntableTint s |} in
  let s :=
    if decide (processingMode s ≠ partial_wall)
    then setMatchReflections false (setFloorEffect fe_none s) else s in
  if decide (processingMode s ≠ turntable_tint
             ∧ processingMode s ≠ tint_turntable_only)
  then setTurntableTint tt_none s else s.

(** *** Updates of one processed image

    [prev.map(p => p.id === imageId ? f(p) : p)] *)

Definition updateImage (imageId : string) (f : ProcessedImage → ProcessedImage)
    (prev : list ProcessedImage) : list ProcessedImage :=
  (λ p, if decide (id p = imageId) then f p else p) <$> prev.

(** [{ ...p, status: 'processing' }] *)
Definition toProcessing (p : ProcessedImage) : ProcessedImage :=
  {| id := id p; originalFile := originalFile p; originalUrl := originalUrl p;
     processedUrl := processedUrl p; status := processing;
     error_ := error_ p |}.

(** [{ ...p, status: 'processing', error: undefined }] *)
Definition toProcessingAgain (p : ProcessedImage) : ProcessedImage :=
  {| id := id p; originalFile := originalFile p; originalUrl := originalUrl p;
     processedUrl := processedUrl p; status := processing;
     error_ := None |}.

(** [{ ...p, status: 'done', processedUrl: resultUrl }] *)
Definition toDone (resultUrl : string) (p : ProcessedImage) : ProcessedImage :=
  {| id := id p; originalFile := originalFile p; originalUrl := originalUrl p;
     processedUrl := Some resultUrl; status := done;
     error_ := error_ p |}.

(** [{ ...p, status: 'error', error: errorMessage }] *)
Definition toError (errorMessage : string) (p : ProcessedImage) : ProcessedImage :=
  {| id := id p; originalFile := originalFile p; originalUrl := originalUrl p;
     processedUrl := processedUrl p; status := error;
     error_ := Some errorMessage |}.

(** [error instanceof Error ? error.message : "An unknown error occurred."] *)
Definition errorMessageOf (e : exn) : string :=
  match e with
  | Error message => message
  | NotAnError => "An unknown error occurred."
  end.

(** What the [try]/[catch] around a call does with its outcome: the update
    of the [try] when the call returned, the one of the [catch] when it
    threw. *)
Definition settled (o : outcome string) : ProcessedImage → ProcessedImage :=
  match o with
  | Returns resultUrl => toDone resultUrl
  | Throws e => toError (errorMessageOf e)
  end.

Definition settle (imageId : string) (o : outcome string)
    (prev : list ProcessedImage) : list ProcessedImage :=
  updateImage imageId (settled o) prev.

(** *** Calls in flight

    An [async] handler runs up to its first [await] when it is called and
    goes on when the awaited call settles.  A suspended activation is kept
    as a task, with the values its closure captured.  The callback that
    [handleProcessImages] maps over the new images is a task from the start
    ([Starting]): its first statement, which marks the image as
    [processing], is an event of its own, so that the batch is seen in
    [pending] as the list that [setProcessedImages(initialProcessedImages)]
    installs.  Tasks go on in any order. *)

Inductive Task :=
  | Starting (image : ProcessedImage) (backgroundImage : option File)
      (processingMode : ProcessingMode) (options : ProcessingOptions)
  | Generating (image : ProcessedImage) (backgroundImage : option File)
      (processingMode : ProcessingMode) (options : ProcessingOptions)
  | Correcting (imageId : string) (imageToCorrect : ProcessedImage)
      (correction : string).

(** The component's state, the calls in flight and the ids that
    [crypto.randomUUID] has handed out so far. *)
Record World := {
  state : State;
  inflight : list Task;
  issued : list string;
}.

Definition initialWorld : World :=
  {| state := initialState; inflight := []; issued := [] |}.

(** *** handleProcessImages *)

Definition uploadNotice : string :=
  "Please upload at least one car image and a background image.".

(** The guard at the top of [handleProcessImages]. *)
Definition submissionRejected (s : State) : bool :=
  (length (carImages s) =? 0)%nat
  || (bool_decide (processingMode s ≠ tint_turntable_only)
      && negb (bool_decide (is_Some (backgroundImage s)))).

Definition newImage (file : File) (uuid_url : string * string) : ProcessedImage :=
  {| id := uuid_url.1; originalFile := file; originalUrl := uuid_url.2;
     processedUrl := None; status := pending; error_ := None |}.

(** [handleProcessImages] up to the creation of the batch; [fresh] holds, for
    each car image, the results of [crypto.randomUUID()] and
    [URL.createObjectURL(file)].  Each image's callback is left as a
    [Starting] task. *)
Definition handleProcessImages (fresh : list (string * string)) (w : World)
  : World :=
  let s := state w in
  if submissionRejected s then
    {| state := setGlobalError (Some uploadNotice) s;
       inflight := inflight w; issued := issued w |}
  else
    let s := setGlobalError None s in
    let initialProcessedImages := zip_with newImage (carImages s) fresh in
    let s := setProcessedImages (λ _, initialProcessedImages) s in
    let options :=
      {| Types.floorEffect := Some (floorEffect s);
         Types.matchReflections := Some (matchReflections s);
         Types.turntableTint := Some (turntableTint s) |} in
    {| state := s;
       inflight := inflight w ++
         ((λ image, Starting image (backgroundImage s) (processingMode s) options)
            <$> initialProcessedImages);
       issued := issued w ++ (id <$> initialProcessedImages) |}.

(** The callback of one image: its first statement ... *)
Definition startGeneration (image : ProcessedImage) (s : State) : State :=
  setProcessedImages (updateImage (id image) toProcessing) s.

(** ... and what it does once [processCarImage] has settled, the model
    having answered [r]. *)
Definition generationOutcome (r : reply) (image : ProcessedImage)
    (backgroundImage : option File) (processingMode : ProcessingMode)
    (options : ProcessingOptions) : outcome string :=
  result (processCarImage (λ _, r) (originalFile image) backgroundImage
            processingMode options).

Definition finishGeneration (r : reply) (image : ProcessedImage)
    (backgroundImage : option File) (processingMode : ProcessingMode)
    (options : ProcessingOptions) (s : State) : State :=
  setProcessedImages
    (settle (id image)
       (generationOutcome r image backgroundImage processingMode options)) s.

(** *** handleCorrectImage *)

Definition refineNotice : string :=
  "An internal error occurred while trying to refine the image.".

(** What [fetch(url)] followed by [response.blob()] gives. *)
Record FetchedBlob := { blob_type : string; blob_base64 : string }.

(** [handleCorrectImage] up to its first [await]. *)
Definition handleCorrectImage (imageId correction : string) (w : World)
  : World :=
  let s := state w in
  let imageToCorrect :=
    List.find (λ p, bool_decide (id p = imageId)) (processedImages s) in
  match imageToCorrect with
  | Some imageToCorrect =>
      if Js.truthy_opt (processedUrl imageToCorrect) then
        {| state := setProcessedImages (updateImage imageId toProcessingAgain) s;
           inflight := inflight w ++ [Correcting imageId imageToCorrect correction];
           issued := issued w |}
      else
        {| state := setGlobalError (Some refineNotice) s;
           inflight := inflight w; issued := issued w |}
  | None =>
      {| state := setGlobalError (Some refineNotice) s;
         inflight := inflight w; issued := issued w |}
  end.

(** The body of the [try]: fetch the current result, wrap it in a file and
    call [correctImage]. *)
Definition correctionAttempt (fetched : outcome FetchedBlob) (r : reply)
    (correction : string) : Async string :=
  await blob := (fetched, []) in
  let imageFile :=
    {| name := "processed_image.png"; type := blob_type blob;
       base64 := blob_base64 blob; readable := true |} in
  correctImage (λ _, r) imageFile correction.

Definition finishCorrection (fetched : outcome FetchedBlob) (r : reply)
    (imageId correction : string) (s : State) : State :=
  setProcessedImages
    (settle imageId (result (correctionAttempt fetched r correction))) s.

(** *** The other handlers *)

#[global] Instance File_eq_dec : EqDecision File.
Proof. solve_decision. Defined.

Definition handleCarImagesSelected (files : list File) (s : State) : State :=
  setCarImages files s.

Definition handleRemoveCarImage (fileToRemove : File) (s : State) : State :=
  setCarImages (filter (λ file, file ≠ fileToRemove) (carImages s)) s.

Definition handleBackgroundImageSelected (files : list File) (s : State) : State :=
  match files with
  | file :: _ => setBackgroundImage (Some file) s
  | [] => s
  end.

Definition handleRemoveBackgroundImage (s : State) : State :=
  setBackgroundImage None s.

(** *** Runs of the application *)

Inductive Event :=
  | CarImagesSelected (files : list File)
  | CarImageRemoved (fileToRemove : File)
  | BackgroundImageSelected (files : list File)
  | BackgroundImageRemoved
  | ModeChosen (mode : ProcessingMode)
  | FloorEffectChosen (v : FloorEffect)
  | MatchReflectionsChosen (v : bool)
  | TurntableTintChosen (v : TurntableTint)
  | ProcessImages (fresh : list (string * string))
  | GenerationStarted (n : nat)
  | GenerationSettled (n : nat) (r : reply)
  | CorrectImage (imageId correction : string)
  | CorrectionSettled (n : nat) (fetched : outcome FetchedBlob) (r : reply).

Definition onState (f : State → State) (w : World) : World :=
  {| state := f (state w); inflight := inflight w; issued := issued w |}.

(** [crypto.randomUUID] gives one id per car image, all different and none
    handed out before. *)
Definition freshIds (fresh : list (string * string)) (w : World) : Prop :=
  length fresh = length (carImages (state w))
  ∧ NoDup fresh.*1
  ∧ Forall (λ i, i ∉ issued w) fresh.*1.

#[global] Instance freshIds_dec fresh w : Decision (freshIds fresh w).
Proof. unfold freshIds. apply _. Defined.

(** One event; [None] when it cannot happen in [w]. *)
Definition step (w : World) (e : Event) : option World :=
  match e with
  | CarImagesSelected files => Some (onState (handleCarImagesSelected files) w)
  | CarImageRemoved file => Some (onState (handleRemoveCarImage file) w)
  | BackgroundImageSelected files =>
      Some (onState (handleBackgroundImageSelected files) w)
  | BackgroundImageRemoved => Some (onState handleRemoveBackgroundImage w)
  | ModeChosen mode => Some (onState (setProcessingMode mode) w)
  | FloorEffectChosen v => Some (onState (setFloorEffect v) w)
  | MatchReflectionsChosen v => Some (onState (setMatchReflections v) w)
  | TurntableTintChosen v => Some (onState (setTurntableTint v) w)
  | ProcessImages fresh =>
      if submissionRejected (state w) then Some (handleProcessImages fresh w)
      else if decide (freshIds fresh w) then Some (handleProcessImages fresh w)
      else None
  | GenerationStarted n =>
      match inflight w !! n with
      | Some (Starting image bg mode options) =>
          Some {| state := startGeneration image (state w);
                  inflight := <[n := Generating image bg mode options]> (inflight w);
                  issued := issued w |}
      | _ => None
      end
  | GenerationSettled n r =>
      match inflight w !! n with
      | Some (Generating image bg mode options) =>
          Some {| state := finishGeneration r image bg mode options (state w);
                  inflight := delete n (inflight w);
                  issued := issued w |}
      | _ => None
      end
  | CorrectImage imageId correction =>
      Some (handleCorrectImage imageId correction w)
  | CorrectionSettled n fetched r =>
      match inflight w !! n with
      | Some (Correcting imageId _ correction) =>
          Some {| state := finishCorrection fetched r imageId correction (state w);
                  inflight := delete n (inflight w);
                  issued := issued w |}
      | _ => None
      end
  end.

Fixpoint run (w : World) (es : list Event) : option World :=
  match es with
  | [] => Some w
  | e :: es =>
      match step w e with
      | Some w' => run w' es
      | None => None
      end
  end.

Definition reachable (w : World) : Prop :=
  ∃ es, run initialWorld es = Some w.

End App.

(** ** components/ImageCard.tsx: asking for a refinement

    [handleCorrectImage] is given to the cards as [onCorrect] and to nothing
    else, and a card calls it from [handleCorrectSubmit] only, the handler
    of the Submit button of its refinement form.  The form belongs to what
    the card renders under [image.status === 'done' && image.processedUrl]. *)

Module Screen.
Import App.

(** White space, as far as [trim] goes in ASCII. *)
Definition isWhiteSpace (a : ascii) : bool :=
  existsb (Ascii.eqb a)
    [" "%char; "009"%char; "010"%char; "011"%char; "012"%char; "013"%char].

(** [!s.trim()] *)
Fixpoint blank (s : string) : bool :=
  match s with
  | EmptyString => true
  | String a rest => isWhiteSpace a && blank rest
  end.

(** [handleCorrectSubmit] of the card of [image]: the arguments of its call
    of [onCorrect], when it makes one. *)
Definition handleCorrectSubmit (image : ProcessedImage) (correctionPrompt : string)
  : option (string * string) :=
  if blank correctionPrompt then None
  else Some (id image, correctionPrompt).

(** The card of [image] can call [onCorrect(imageId, correction)]. *)
Definition submits (image : ProcessedImage) (imageId correction : string) : bool :=
  refineOffered image
  && bool_decide (handleCorrectSubmit image correction = Some (imageId, correction)).

(** The events that the screen of a world allows: a request for a
    refinement comes from the card of one of the processed images. *)
Definition allows (w : World) (e : Event) : bool :=
  match e with
  | CorrectImage imageId correction =>
      existsb (λ image, submits image imageId correction)
              (processedImages (state w))
  | _ => true
  end.

Definition step (w : World) (e : Event) : option World :=
  if allows w e then App.step w e else None.

Fixpoint run (w : World) (es : list Event) : option World :=
  match es with
  | [] => Some w
  | e :: es =>
      match step w e with
      | Some w' => run w' es
      | None => None
      end
  end.

Definition reachable (w : World) : Prop :=
  ∃ es, run initialWorld es = Some w.

End Screen.

(** ** App.tsx: the controls around the batch *)

Module Ui.
Import App.

(** [canProcess], which enables the Generate button. *)
Definition canProcess (isProcessing : bool) (s : State) : bool :=
  if isProcessing || (length (carImages s) =? 0)%nat then false
  else if bool_decide (processingMode s = tint_turntable_only) then true
  else bool_decide (backgroundImage s ≠ None).


(** *** handleDownloadAll

    [jsZip] tells whether [window.JSZip] is there, [fetch] is
    [fetch(url)] followed by [response.blob()], and [generateAsync] tells
    whether the archive could be generated and handed to the browser.  The
    archive under construction is the list of the calls
    [zip.file(filename, blob)], in order. *)

Definition zipMissingNotice : string :=
  "Could not initiate download. JSZip library is missing.".
Definition zipFailedNotice : string := "Failed to generate zip file.".
Definition archiveName : string := "autoshade-studio-results.zip".

Definition successfulImages (s : State) : list ProcessedImage :=
  filter (λ img, status img = done ∧ Js.truthy_opt (processedUrl img) = true)
         (processedImages s).

(** The [for ... of] loop with its [try]/[catch]. *)
Fixpoint addFiles (fetch : string → outcome FetchedBlob)
    (images : list ProcessedImage) (zip : list (string * FetchedBlob))
  : list (string * FetchedBlob) :=
  match images with
  | [] => zip
  | image :: rest =>
      match fetch (default "null" (processedUrl image)) with
      | Returns blob =>
          let filename := getOutputFilename (name (originalFile image)) in
          addFiles fetch rest (zip ++ [(filename, blob)])
      | Throws _ => addFiles fetch rest zip
      end
  end.

(** The new state and, when a download is started, its name and files. *)
Definition handleDownloadAll (jsZip : bool)
    (fetch : string → outcome FetchedBlob)
    (generateAsync : list (string * FetchedBlob) → bool) (s : State)
  : State * option (string * list (string * FetchedBlob)) :=
  if negb jsZip then (setGlobalError (Some zipMissingNotice) s, None)
  else
    let successfulImages := successfulImages s in
    if (length successfulImages =? 0)%nat then (s, None)
    else
      let zip := addFiles fetch successfulImages [] in
      if generateAsync zip then (s, Some (archiveName, zip))
      else (setGlobalError (Some zipFailedNotice) s, None).

(** *** The window's drag-and-drop handlers

    [dragCounter] is the ref, [isDragging] the state cell. *)

Record Drag := {
  dragCounter : Z;
  isDragging : bool;
}.

Definition atRest : Drag := {| dragCounter := 0; isDragging := false |}.

(** [hasItems] is [e.dataTransfer?.items && e.dataTransfer.items.length > 0]. *)
Definition handleWindowDragEnter (hasItems : bool) (d : Drag) : Drag :=
  {| dragCounter := dragCounter d + 1;
     isDragging := if hasItems then true else isDragging d |}.

Definition handleWindowDragLeave (d : Drag) : Drag :=
  let current := (dragCounter d - 1)%Z in
  {| dragCounter := current;
     isDragging := if (current =? 0)%Z then false else isDragging d |}.

Definition handleWindowDrop (d : Drag) : Drag :=
  {| dragCounter := 0; isDragging := false |}.

Inductive DragEvent := DragEnter (hasItems : bool) | DragLeave | DragOver | Drop.

Definition onDrag (d : Drag) (e : DragEvent) : Drag :=
  match e with
  | DragEnter hasItems => handleWindowDragEnter hasItems d
  | DragLeave => handleWindowDragLeave d
  | DragOver => d
  | Drop => handleWindowDrop d
  end.

Definition drags (d : Drag) (es : list DragEvent) : Drag := foldl onDrag d es.

End Ui.

(** ** components/ImageUploader.tsx *)

Module ImageUploader.

Definition MAX_FILES : nat := 50.
Definition MAX_SIZE_MB : N := 10.
Definition MAX_SIZE_BYTES : N := MAX_SIZE_MB * 1024 * 1024.

Definition defaultAccept : string := "image/jpeg, image/png, image/webp".

Section HandleFiles.

(** [file.size], in bytes. *)
Variable size : File → N.

(** [handleFiles]: the files given to [onFilesSelected], when it is called. *)
Definition handleFiles (accept : string) (multiple : bool)
    (files : option (list File)) : option (list File) :=
  match files with
  | None => None
  | Some files =>
      let fileArray := files in
      let fileArray :=
        filter (λ file, Js.includes (type file) accept = true) fileArray in
      let fileArray :=
        filter (λ file, (size file ≤ MAX_SIZE_BYTES)%N) fileArray in
      let fileArray :=
        if negb multiple then take 1 fileArray else take MAX_FILES fileArray in
      if (0 <? length fileArray)%nat then Some fileArray else None
  end.

End HandleFiles.

End ImageUploader.

(** * Properties *)

(** ** Vocabulary of the specification *)

(** The failures of the generation client, as the [Error]s the service throws. *)
Definition MissingInput : exn := Error backgroundRequired.
Definition BackendRefused (text : string) : exn := Error (textInsteadOfImage text).
Definition NoImageProduced : exn := Error noImageGenerated.

(** The parts of a response that the loops can examine, in the order of the
    loops: the parts of candidate after candidate, up to the first candidate
    without content or parts and up to the first inline data without a type,
    where the loops end with a [TypeError].  The second component is that
    error, if there is one. *)
Fixpoint examinedParts (ps : list ResponsePart) : list Part * option exn :=
  match ps with
  | [] => ([], None)
  | Complete part :: rest =>
      let '(examined, fault) := examinedParts rest in (part :: examined, fault)
  | Typeless _ :: _ => ([], Some mimeTypeMissing)
  end.

Fixpoint examinedCandidates (cs : list Candidate) : list Part * option exn :=
  match cs with
  | [] => ([], None)
  | candidate :: rest =>
      match content candidate with
      | None => ([], Some contentMissing)
      | Some content =>
          match parts content with
          | None => ([], Some partsMissing)
          | Some ps =>
              match examinedParts ps with
              | (examined, Some fault) => (examined, Some fault)
              | (examined, None) =>
                  let '(more, fault) := examinedCandidates rest in
                  (examined ++ more, fault)
              end
          end
      end
  end.

Definition responseParts (response : GenerateContentResponse) : list Part :=
  (examinedCandidates (default [] (candidates response))).1.

Definition responseFault (response : GenerateContentResponse) : option exn :=
  (examinedCandidates (default [] (candidates response))).2.

(** The data URL of the first image part of a list of parts. *)
Fixpoint firstImage (ps : list Part) : option string :=
  match ps with
  | [] => None
  | part :: rest =>
      if isImagePart part then dataUrl <$> inlineData part else firstImage rest
  end.

(** The loops find the first image part among the parts they can examine;
    without one, they end with the [TypeError], if there is one. *)
Definition ended (examined : list Part * option exn) : scanned :=
  match firstImage examined.1 with
  | Some url => Found url
  | None =>
      match examined.2 with
      | Some fault => Faulted fault
      | None => NoImage
      end
  end.

(** Whether the reads that [processCarImage] awaits succeed: the one of the
    car image and, in the modes that use a background image, the one of the
    background image. *)
Definition filesRead (carImageFile : File) (backgroundImageFile : option File)
    (mode : ProcessingMode) : bool :=
  readable carImageFile
  && (bool_decide (mode = tint_turntable_only)
      || from_option readable true backgroundImageFile).

(** The step number a line of a prompt starts with, if any. *)
Definition stepNumber (line : string) : option nat :=
  List.find (λ k, Js.startsWith (pretty k +:+ ". ") line) (seq 1 9).

(** The step numbers of a prompt, in line order. *)
Definition numbering (prompt : string) : list nat :=
  omap stepNumber (Js.lines prompt).

(** The clauses that belong to an option. *)
Definition floorEffectClauses : list string :=
  [Prompt.floorDesaturate; Prompt.floorRed; Prompt.floorYellow].
Definition matchReflectionsClauses : list string := [Prompt.reflections].
Definition turntableTintClauses : list string :=
  [Prompt.tintRed; Prompt.tintYellow;
   "color overlay with exactly 15% opacity ONLY to the top surface of the turntable"].


(** Whether the character [c] occurs in [s]. *)
Fixpoint occurs (c : ascii) (s : string) : bool :=
  match s with
  | EmptyString => false
  | String a rest => Ascii.eqb a c || occurs c rest
  end.

(** *** What holds of every reachable world *)

Module Inv.
Import App.

(** A finished job has a result, a job not yet started has none. *)
Definition jobOk (p : ProcessedImage) : Prop :=
  (status p = done → Js.truthy_opt (processedUrl p) = true)
  ∧ (status p = pending → processedUrl p = None).

(** The id of the image a task will update when it goes on. *)
Definition taskId (t : Task) : string :=
  match t with
  | Starting image _ _ _ | Generating image _ _ _ => id image
  | Correcting imageId _ _ => imageId
  end.

Definition generationId (t : Task) : option string :=
  match t with
  | Starting image _ _ _ | Generating image _ _ _ => Some (id image)
  | Correcting _ _ _ => None
  end.

(** A generation in flight belongs to a job that has no result yet; a
    correction in flight belongs to a job that has one. *)
Definition taskReq (t : Task) (p : ProcessedImage) : Prop :=
  match t with
  | Starting _ _ _ _ | Generating _ _ _ _ =>
      (status p = pending ∨ status p = processing) ∧ processedUrl p = None
  | Correcting _ _ _ => Js.truthy_opt (processedUrl p) = true
  end.

Definition taskOk (jobs : list ProcessedImage) (ids : list string) (t : Task)
  : Prop :=
  taskId t ∈ ids ∧ ∀ p, p ∈ jobs → id p = taskId t → taskReq t p.

Record invariant (w : World) : Prop := {
  inv_jobs : Forall jobOk (processedImages (state w));
  inv_ids : NoDup (id <$> processedImages (state w));
  inv_issued : Forall (λ p, id p ∈ issued w) (processedImages (state w));
  inv_generations : NoDup (omap generationId (inflight w));
  inv_tasks : Forall (taskOk (processedImages (state w)) (issued w)) (inflight w);
}.

(** The events that replace the batch. *)
Definition isProcessImages (e : Event) : bool :=
  match e with
  | ProcessImages _ => true
  | _ => false
  end.

(** The image that a call in flight will update is [pending] or
    [processing]. *)
Definition busy (jobs : list ProcessedImage) (t : Task) : Prop :=
  ∀ p, p ∈ jobs → id p = taskId t → status p = pending ∨ status p = processing.

(** What holds, beyond [invariant], of every world that the screen leads to:
    the calls in flight are about different images, and these images are
    [pending] or [processing]. *)
Record settledOnce (w : World) : Prop := {
  once_tasks : NoDup (taskId <$> inflight w);
  once_busy : Forall (busy (processedImages (state w))) (inflight w);
}.

End Inv.

(** *** Sample runs *)

Module Sample.
Import App.

Definition car (n : string) : File :=
  {| name := n; type := "image/jpeg"; base64 := "QUJD"; readable := true |}.

Definition background : File :=
  {| name := "beach.png"; type := "image/png"; base64 := "QkVBQ0g=";
     readable := true |}.

(** A picked car image that can no longer be read. *)
Definition lostCar : File :=
  {| name := "car.jpg"; type := "image/jpeg"; base64 := "QUJD";
     readable := false |}.

(** A file picked without a media type. *)
Definition untyped : File :=
  {| name := "photo"; type := EmptyString; base64 := "QUJD"; readable := true |}.

Definition options : ProcessingOptions :=
  {| Types.floorEffect := Some fe_none; Types.matchReflections := Some false;
     Types.turntableTint := Some tt_red |}.

(** A response with a text part and then an image part. *)
Definition answer (ps : list Part) : GenerateContentResponse :=
  {| candidates :=
       Some [ {| content := Some {| parts := Some (Complete <$> ps) |} |} ] |}.

Definition imageAnswer : GenerateContentResponse :=
  answer [ textPart "Here is your image.";
           inlinePart {| mimeType := "image/png"; data := "iVBOR" |} ].

(** A response with a text part only. *)
Definition refusal : GenerateContentResponse :=
  answer [ textPart "I cannot edit this image." ].


(** A blocked answer: its one candidate has no content. *)
Definition blocked : GenerateContentResponse :=
  {| candidates := Some [ {| content := None |} ] |}.

(** An answer without any part. *)
Definition noParts : GenerateContentResponse := answer [].

Definition fetchedResult : outcome FetchedBlob :=
  Returns {| blob_type := "image/png"; blob_base64 := "iVBOR" |}.

(** One car image, tinted in place: generated with success. *)
Definition oneDoneRun : list Event :=
  [ CarImagesSelected [car "car.jpg"];
    ModeChosen tint_turntable_only;
    TurntableTintChosen tt_red;
    ProcessImages [("job-1", "blob:1")];
    GenerationStarted 0;
    GenerationSettled 0 (Resolved imageAnswer) ].

Definition oneDone : World :=
  Eval vm_compute in default initialWorld (run initialWorld oneDoneRun).

(** ... and then refined, the model answering with a refusal. *)
Definition failedRefinementRun : list Event :=
  oneDoneRun
  ++ [ CorrectImage "job-1" "make the shadow softer";
       CorrectionSettled 0 fetchedResult (Resolved refusal) ].

Definition failedRefinement : World :=
  Eval vm_compute in default initialWorld (run initialWorld failedRefinementRun).

(** One car image on a new background, the model answering with a refusal. *)
Definition failedGenerationRun : list Event :=
  [ CarImagesSelected [car "car.jpg"];
    BackgroundImageSelected [background];
    ProcessImages [("job-1", "blob:1")];
    GenerationStarted 0;
    GenerationSettled 0 (Resolved refusal) ].

Definition failedGeneration : World :=
  Eval vm_compute in default initialWorld (run initialWorld failedGenerationRun).

(** Three car images, all generated with success. *)
Definition threeDoneRun : list Event :=
  [ CarImagesSelected [car "a.jpg"; car "b.jpg"; car "c.jpg"];
    BackgroundImageSelected [background];
    ProcessImages [("job-1", "blob:1"); ("job-2", "blob:2"); ("job-3", "blob:3")];
    GenerationStarted 0; GenerationStarted 1; GenerationStarted 2;
    GenerationSettled 1 (Resolved imageAnswer);
    GenerationSettled 0 (Resolved imageAnswer);
    GenerationSettled 0 (Resolved imageAnswer) ].

Definition threeDone : World :=
  Eval vm_compute in default initialWorld (run initialWorld threeDoneRun).

(** The image at position [i] of a world. *)
Definition job (w : World) (i : nat) : ProcessedImage :=
  default (newImage (car EmptyString) (EmptyString, EmptyString))
          (processedImages (state w) !! i).

Definition doneJob : ProcessedImage := Eval vm_compute in job oneDone 0.
Definition failedJob : ProcessedImage := Eval vm_compute in job failedGeneration 0.
Definition secondJob : ProcessedImage := Eval vm_compute in job threeDone 1.

(** One car image selected, no background, mode [full]. *)
Definition noBackground : World :=
  Eval vm_compute in
    default initialWorld (run initialWorld [CarImagesSelected [car "car.jpg"]]).

(** One car image selected, no background, mode [tint-turntable-only]. *)
Definition tintedNoBackground : World :=
  Eval vm_compute in
    default initialWorld
      (run initialWorld [CarImagesSelected [car "car.jpg"];
                         ModeChosen tint_turntable_only;
                         TurntableTintChosen tt_yellow]).

End Sample.

(** *** Further vocabulary *)

(** What [fileToBase64] resolves with. *)
Definition encoded (file : File) : Blob :=
  {| mimeType := type file;
     data := default "undefined" (Js.split ","%char (readAsDataURL file) !! 1%nat) |}.

(** A data URL of an image. *)
Definition imageDataUrl (url : string) : Prop :=
  Js.startsWith "data:image/" url = true.

(** The numbered steps of a mode's template and the optional clauses that
    the options select in that mode. *)
Definition baseSteps (mode : ProcessingMode) : nat :=
  match mode with
  | full => 4
  | partial_wall | turntable_tint => 5
  | tint_turntable_only => 3
  end.

Definition selectedClauses (mode : ProcessingMode) (options : ProcessingOptions)
  : nat :=
  match mode with
  | partial_wall =>
      (match floorEffect options with
       | Some fe_desaturate | Some fe_red | Some fe_yellow => 1
       | _ => 0
       end
       + match matchReflections options with Some true => 1 | _ => 0 end)%nat
  | turntable_tint =>
      match turntableTint options with
      | Some tt_red | Some tt_yellow => 1
      | _ => 0
      end
  | _ => 0
  end.

(** How an image may differ from what it was, as long as its batch is kept. *)
Definition evolves (p p' : ProcessedImage) : Prop :=
  id p' = id p
  ∧ originalFile p' = originalFile p
  ∧ originalUrl p' = originalUrl p
  ∧ (processedUrl p ≠ None → processedUrl p' ≠ None)
  ∧ (status p ≠ pending → status p' ≠ pending).

(** What every image of a reachable world looks like. *)
Definition wellFormed (p : ProcessedImage) : Prop :=
  (status p = error → error_ p ≠ None)
  ∧ (status p = pending → error_ p = None)
  ∧ (∀ url, processedUrl p = Some url → imageDataUrl url).

(** The image has a call in flight. *)
Definition awaited (w : App.World) (p : ProcessedImage) : Prop :=
  ∃ t, t ∈ App.inflight w ∧ Inv.taskId t = id p.

(** The inputs a generation task carries passed the guard of
    [handleProcessImages]. *)
Definition guarded (t : App.Task) : Prop :=
  match t with
  | App.Starting _ bg mode _ | App.Generating _ bg mode _ =>
      mode = tint_turntable_only ∨ is_Some bg
  | App.Correcting _ _ _ => True
  end.

(** Sequences of drag events in which every enter has its leave. *)
Inductive nested : list Ui.DragEvent → Prop :=
  | nested_nil : nested []
  | nested_over es : nested es → nested (Ui.DragOver :: es)
  | nested_pair hasItems es1 es2 :
      nested es1 → nested es2 →
      nested (Ui.DragEnter hasItems :: es1 ++ Ui.DragLeave :: es2).

(** [fetch] of the data URL of a blob, when it succeeds. *)
Definition fetchedFrom (b : Blob) : App.FetchedBlob :=
  {| App.blob_type := mimeType b; App.blob_base64 := data b |}.

(** *** Further sample runs *)

Module Scenario.
Import App.

(** Three car images on a new background, submitted and started. *)
Definition threeGeneratingRun : list Event :=
  [ CarImagesSelected [Sample.car "a.jpg"; Sample.car "b.jpg"; Sample.car "c.jpg"];
    BackgroundImageSelected [Sample.background];
    ProcessImages [("job-1", "blob:1"); ("job-2", "blob:2"); ("job-3", "blob:3")];
    GenerationStarted 0; GenerationStarted 1; GenerationStarted 2 ].

Definition threeGenerating : World :=
  Eval vm_compute in default initialWorld (run initialWorld threeGeneratingRun).

(** The second image of that batch, as its callback captured it and as it
    is in the list. *)
Definition capturedSecond : ProcessedImage :=
  {| id := "job-2"; originalFile := Sample.car "b.jpg"; originalUrl := "blob:2";
     processedUrl := None; status := pending; error_ := None |}.

Definition second : ProcessedImage :=
  Eval vm_compute in Sample.job threeGenerating 1.

Definition submittedOptions : ProcessingOptions :=
  {| Types.floorEffect := Some fe_none; Types.matchReflections := Some false;
     Types.turntableTint := Some tt_none |}.

(** The same car images, submitted again while the calls are in flight. *)
Definition resubmittedIds : list (string * string) :=
  [("job-4", "blob:4"); ("job-5", "blob:5"); ("job-6", "blob:6")].




(** A [fetch] that always fails. *)
Definition fetchNone (url : string) : outcome FetchedBlob :=
  Throws (Error "Failed to fetch").

End Scenario.

(** The task an event continues. *)
Definition continued (e : App.Event) : option nat :=
  match e with
  | App.GenerationStarted n | App.GenerationSettled n _
  | App.CorrectionSettled n _ _ => Some n
  | _ => None
  end.

(** What the loop of [handleDownloadAll] adds to the archive for one image. *)
Definition exported (fetch : string → outcome App.FetchedBlob)
    (image : ProcessedImage) : option (string * App.FetchedBlob) :=
  match fetch (default "null" (processedUrl image)) with
  | Returns blob => Some (App.getOutputFilename (name (originalFile image)), blob)
  | Throws _ => None
  end.

(** A file's size, for the sample files: the length of its base64 text. *)
Definition sampleSize (file : File) : N := N.of_nat (String.length (base64 file)).

(** ** Reading a response *)

Section Scan.

Implicit Types (ps pre post : list Part) (cs : list Candidate).

Lemma firstImage_app ps qs :
  firstImage (ps ++ qs) =
    match firstImage ps with Some url => Some url | None => firstImage qs end.
Proof.
  induction ps as [|part ps IH]; simpl; [done|].
  unfold isImagePart. destruct (inlineData part) as [b|]; [|done].
  by destruct (Js.startsWith "image/" (mimeType b)).
Qed.

Lemma firstImage_no_image ps :
  Forall (λ q, isImagePart q = false) ps → firstImage ps = None.
Proof.
  induction 1 as [|part ps Hpart _ IH]; simpl; [done|]. by rewrite Hpart.
Qed.

Lemma firstImage_None ps :
  firstImage ps = None → Forall (λ q, isImagePart q = false) ps.
Proof.
  induction ps as [|part ps IH]; simpl; [done|].
  unfold isImagePart. destruct (inlineData part) as [b|] eqn:Hb.
  - destruct (Js.startsWith "image/" (mimeType b)) eqn:Himg; [done|].
    intros H. constructor; [|by apply IH]. unfold isImagePart. by rewrite Hb.
  - intros H. constructor; [|by apply IH]. unfold isImagePart. by rewrite Hb.
Qed.

Lemma firstImage_first_image pre part b post :
  Forall (λ q, isImagePart q = false) pre →
  inlineData part = Some b →
  Js.startsWith "image/" (mimeType b) = true →
  firstImage (pre ++ part :: post) = Some (dataUrl b).
Proof.
  intros Hpre Hb Himg.
  rewrite firstImage_app, (firstImage_no_image pre Hpre). simpl.
  unfold isImagePart. by rewrite Hb, Himg.
Qed.

Lemma scanParts_examined (rs : list ResponsePart) :
  scanParts rs = ended (examinedParts rs).
Proof.
  unfold ended.
  induction rs as [|[part|t] rs IH]; simpl; [done| |done].
  destruct (examinedParts rs) as [examined fault]. simpl in *.
  unfold isImagePart. destruct (inlineData part) as [b|]; [|done].
  by destruct (Js.startsWith "image/" (mimeType b)).
Qed.

Lemma scanCandidates_examined cs :
  scanCandidates cs = ended (examinedCandidates cs).
Proof.
  induction cs as [|c cs IH]; simpl; [done|].
  destruct (content c) as [ct|]; [|done].
  destruct (parts ct) as [rs|]; [|done].
  rewrite scanParts_examined, IH. unfold ended.
  destruct (examinedParts rs) as [examined [fault|]]; simpl.
  { by destruct (firstImage examined). }
  destruct (examinedCandidates cs) as [more fault]. simpl.
  rewrite firstImage_app. by destruct (firstImage examined).
Qed.

Lemma scanCandidates_responseParts response :
  scanCandidates (default [] (candidates response)) =
    match firstImage (responseParts response) with
    | Some url => Found url
    | None =>
        match responseFault response with
        | Some fault => Faulted fault
        | None => NoImage
        end
    end.
Proof. apply scanCandidates_examined. Qed.

Lemma firstImage_truthy ps url : firstImage ps = Some url → Js.truthy url = true.
Proof.
  induction ps as [|part ps IH]; simpl; [done|].
  unfold isImagePart. destruct (inlineData part) as [b|]; [|done].
  destruct (Js.startsWith "image/" (mimeType b)); [|done].
  by intros [= <-].
Qed.

(** What [readResponse] does when there is an image part, and when there is
    none. *)
Lemma readResponse_image response url :
  firstImage (responseParts response) = Some url →
  readResponse response = ret url.
Proof.
  intros H. unfold readResponse. by rewrite scanCandidates_responseParts, H.
Qed.

Lemma readResponse_no_image response :
  firstImage (responseParts response) = None →
  readResponse response =
    throw (match responseFault response with
           | Some fault => fault
           | None =>
               if Js.truthy_opt (response_text response)
               then BackendRefused (default "" (response_text response))
               else NoImageProduced
           end).
Proof.
  intros H. unfold readResponse. rewrite scanCandidates_responseParts, H.
  destruct (responseFault response) as [fault|]; [done|].
  destruct (response_text response) as [t|]; simpl; [|done].
  by destruct (Js.truthy t).
Qed.

(** Whatever the answer, [readResponse] sends nothing, and throws unless it
    returns the first image part. *)
Lemma readResponse_cases response :
  (∃ url, firstImage (responseParts response) = Some url
          ∧ readResponse response = ret url)
  ∨ (∃ e, firstImage (responseParts response) = None
          ∧ readResponse response = throw e).
Proof.
  destruct (firstImage (responseParts response)) as [url|] eqn:H.
  - left. exists url. split; [done|]. by apply readResponse_image.
  - right. eexists. split; [done|]. by apply readResponse_no_image.
Qed.

(** A returned result is never the empty string. *)
Lemma readResponse_truthy response url :
  result (readResponse response) = Returns url → Js.truthy url = true.
Proof.
  destruct (readResponse_cases response) as [(u & Hu & ->)|(e & _ & ->)]; [|done].
  intros [= <-]. by eapply firstImage_truthy.
Qed.

End Scan.

(** ** The two operations of the client, case by case *)

Lemma bind_ret_l {A B} (a : A) (k : A → Async B) : bind (ret a) k = k a.
Proof. unfold bind, ret. by destruct (k a). Qed.

Lemma bind_throw_l {A B} (e : exn) (k : A → Async B) : bind (throw e) k = throw e.
Proof. done. Qed.

Lemma fileToBase64_read file :
  readable file = true → fileToBase64 file = ret (encoded file).
Proof. intros H. unfold fileToBase64. by rewrite H. Qed.

Lemma fileToBase64_lost file :
  readable file = false → fileToBase64 file = throw NotAnError.
Proof. intros H. unfold fileToBase64. by rewrite H. Qed.

Section Client.

Variable api : Request → reply.

(** With a background image, or in the mode that needs none, [processCarImage]
    sends one request and reads the answer. *)
Lemma processCarImage_sends carImageFile backgroundImageFile mode options :
  mode = tint_turntable_only ∨ is_Some backgroundImageFile →
  filesRead carImageFile backgroundImageFile mode = true →
  ∃ ps, processCarImage api carImageFile backgroundImageFile mode options =
          await response := generateContent api (request ps) in
          readResponse response.
Proof.
  unfold filesRead. intros Hbg [Hcar Hread]%andb_true_iff.
  destruct Hbg as [-> | [bg ->]].
  - eexists. unfold processCarImage. rewrite (fileToBase64_read _ Hcar).
    by rewrite !bind_ret_l.
  - destruct mode; simpl in Hread; eexists; unfold processCarImage;
      rewrite (fileToBase64_read _ Hcar), ?(fileToBase64_read _ Hread);
      by rewrite !bind_ret_l.
Qed.

(** A read that fails ends the operation before anything is sent. *)
Lemma processCarImage_lost carImageFile backgroundImageFile mode options :
  mode = tint_turntable_only ∨ is_Some backgroundImageFile →
  filesRead carImageFile backgroundImageFile mode = false →
  processCarImage api carImageFile backgroundImageFile mode options
  = throw NotAnError.
Proof.
  unfold filesRead. intros Hbg Hread. unfold processCarImage.
  destruct (readable carImageFile) eqn:Hcar.
  - rewrite (fileToBase64_read _ Hcar), bind_ret_l. simpl in Hread.
    destruct Hbg as [-> | [bg ->]]; [done|].
    destruct mode; simpl in Hread; try done;
      by rewrite (fileToBase64_lost _ Hread).
  - by rewrite (fileToBase64_lost _ Hcar).
Qed.

Lemma correctImage_sends processedImageFile correction :
  readable processedImageFile = true →
  ∃ ps, correctImage api processedImageFile correction =
          await response := generateContent api (request ps) in
          readResponse response.
Proof.
  intros Hread. eexists. unfold correctImage.
  by rewrite (fileToBase64_read _ Hread), bind_ret_l.
Qed.

Lemma correctImage_lost processedImageFile correction :
  readable processedImageFile = false →
  correctImage api processedImageFile correction = throw NotAnError.
Proof.
  intros Hread. unfold correctImage. by rewrite (fileToBase64_lost _ Hread).
Qed.

Lemma processCarImage_no_background carImageFile mode options :
  mode ≠ tint_turntable_only →
  processCarImage api carImageFile None mode options
  = throw (if readable carImageFile then MissingInput else NotAnError).
Proof.
  intros Hmode. unfold processCarImage.
  destruct (readable carImageFile) eqn:Hcar.
  - rewrite (fileToBase64_read _ Hcar), bind_ret_l. by destruct mode.
  - by rewrite (fileToBase64_lost _ Hcar).
Qed.

(** Either operation sends one request and reads the answer, or throws and
    sends nothing. *)
Lemma processCarImage_cases carImageFile backgroundImageFile mode options :
  (∃ ps, processCarImage api carImageFile backgroundImageFile mode options =
           await response := generateContent api (request ps) in
           readResponse response)
  ∨ (∃ e, processCarImage api carImageFile backgroundImageFile mode options
          = throw e).
Proof.
  destruct (decide (mode = tint_turntable_only ∨ is_Some backgroundImageFile))
    as [Hbg|Hbg].
  - destruct (filesRead carImageFile backgroundImageFile mode) eqn:Hread.
    + left. by apply processCarImage_sends.
    + right. eexists. by apply processCarImage_lost.
  - right. eexists.
    destruct backgroundImageFile as [bg|]; [by destruct Hbg; right|].
    apply processCarImage_no_background. tauto.
Qed.

Lemma correctImage_cases processedImageFile correction :
  (∃ ps, correctImage api processedImageFile correction =
           await response := generateContent api (request ps) in
           readResponse response)
  ∨ (∃ e, correctImage api processedImageFile correction = throw e).
Proof.
  destruct (readable processedImageFile) eqn:Hread.
  - left. by apply correctImage_sends.
  - right. eexists. by apply correctImage_lost.
Qed.

Lemma answered_result ps response :
  api (request ps) = Resolved response →
  result (await response := generateContent api (request ps) in
          readResponse response)
  = result (readResponse response).
Proof.
  intros H. unfold generateContent, bind. rewrite H.
  by destruct (readResponse response) as [o sent].
Qed.

End Client.

Section ClientCalls.

Variable api : Request → reply.

Lemma readResponse_sends_nothing response :
  networkCalls (readResponse response) = [].
Proof.
  by destruct (readResponse_cases response) as [(u & _ & ->)|(e & _ & ->)].
Qed.

Lemma one_call ps :
  networkCalls (await response := generateContent api (request ps) in
                readResponse response) = [request ps].
Proof.
  unfold generateContent, bind. destruct (api (request ps)) as [r|e]; [|done].
  pose proof (readResponse_sends_nothing r) as H.
  destruct (readResponse r) as [o sent]. simpl in *. by subst.
Qed.

Lemma processCarImage_tint_only carImageFile backgroundImageFile options :
  processCarImage api carImageFile backgroundImageFile tint_turntable_only options =
    if readable carImageFile then
      await response := generateContent api
        (request [textPart (Prompt.buildPrompt tint_turntable_only options);
                  inlinePart (encoded carImageFile)]) in
      readResponse response
    else throw NotAnError.
Proof.
  unfold processCarImage. destruct (readable carImageFile) eqn:Hcar.
  - by rewrite (fileToBase64_read _ Hcar), !bind_ret_l.
  - by rewrite (fileToBase64_lost _ Hcar).
Qed.

End ClientCalls.

(** ** C3: a missing background image *)

(** C3, as amended.  With a mode other than [tint-turntable-only] and no
    background image, [processCarImage] fails and has sent nothing to the
    model: it throws the missing-input error when the car image could be
    read, and the reader's failure when it could not, the car image being
    read before the background image is looked at.  In mode
    [tint-turntable-only] the missing background is accepted: once the car
    image is read, the one request (prompt and car image) is sent and the
    operation ends as the reading of the model's answer ends, or with the
    failure of the call.  The guard of [handleProcessImages] makes the same
    distinction before any image is submitted: with car images selected and
    no background, nothing is submitted in the other modes (the world [w]),
    and the batch is created in mode [tint-turntable-only] (the world
    [tinted]). *)
Theorem missing_background_fails_before_any_call
    (api : Request → reply) (carImageFile : File) (mode : ProcessingMode)
    (options : ProcessingOptions) (fresh : list (string * string))
    (w tinted : App.World) :
  mode ≠ tint_turntable_only →
  App.processingMode (App.state w) = mode →
  App.backgroundImage (App.state w) = None →
  App.carImages (App.state w) ≠ [] →
  App.processingMode (App.state tinted) = tint_turntable_only →
  App.backgroundImage (App.state tinted) = None →
  App.carImages (App.state tinted) ≠ [] →
  result (processCarImage api carImageFile None mode options)
    = Throws (if readable carImageFile then MissingInput else NotAnError)
  ∧ networkCalls (processCarImage api carImageFile None mode options) = []
  ∧ (let sent :=
       request [textPart (Prompt.buildPrompt tint_turntable_only options);
                inlinePart (encoded carImageFile)] in
     processCarImage api carImageFile None tint_turntable_only options
     = if readable carImageFile then
         match api sent with
         | Resolved response => (result (readResponse response), [sent])
         | Rejected e => (Throws e, [sent])
         end
       else (Throws NotAnError, []))
  ∧ (let w' := App.handleProcessImages fresh w in
     App.processedImages (App.state w') = App.processedImages (App.state w)
     ∧ App.globalError (App.state w') = Some App.uploadNotice
     ∧ App.inflight w' = App.inflight w)
  ∧ (let w' := App.handleProcessImages fresh tinted in
     App.processedImages (App.state w')
       = zip_with App.newImage (App.carImages (App.state tinted)) fresh
     ∧ App.globalError (App.state w') = None
     ∧ App.inflight w'
       = App.inflight tinted
         ++ ((λ image, App.Starting image None tint_turntable_only
                         {| floorEffect := Some (App.floorEffect (App.state tinted));
                            matchReflections :=
                              Some (App.matchReflections (App.state tinted));
                            turntableTint :=
                              Some (App.turntableTint (App.state tinted)) |})
               <$> zip_with App.newImage (App.carImages (App.state tinted)) fresh)).
Proof.
  intros Hmode Hw Hbg Hcars Htint Hbg' Hcars'.
  rewrite (processCarImage_no_background api carImageFile mode options Hmode).
  split_and!; try done.
  - rewrite processCarImage_tint_only. cbv zeta.
    destruct (readable carImageFile); [|done].
    unfold generateContent, bind.
    destruct (api _) as [response|e]; [|done].
    pose proof (readResponse_sends_nothing response) as Hsent.
    destruct (readResponse response) as [o sent]. simpl in *. by subst.
  - unfold App.handleProcessImages, App.submissionRejected. rewrite Hbg, Hw.
    destruct (App.carImages (App.state w)); [done|].
    simpl. by rewrite bool_decide_eq_true_2.
  - unfold App.handleProcessImages, App.submissionRejected. rewrite Hbg', Htint.
    destruct (App.carImages (App.state tinted)) eqn:Hfiles; [done|].
    cbn [length Nat.eqb orb bool_decide andb]. rewrite bool_decide_eq_false_2 by auto.
    cbn [andb App.state App.inflight App.setProcessedImages App.setGlobalError
         App.processedImages App.globalError App.carImages App.backgroundImage
         App.processingMode App.floorEffect App.matchReflections
         App.turntableTint].
    by rewrite Hbg', Htint, Hfiles.
Qed.

Lemma missing_background_fails_before_any_call_witness :
  let api := λ _ : Request, Resolved Sample.imageAnswer in
  let carImageFile := Sample.car "car.jpg" in
  let fresh := [("job-1", "blob:1")] in
  let w := Sample.noBackground in
  let tinted := Sample.tintedNoBackground in
  (result (processCarImage api carImageFile None full Sample.options)
     = Throws (if readable carImageFile then MissingInput else NotAnError)
   ∧ networkCalls (processCarImage api carImageFile None full Sample.options) = []
   ∧ (let sent :=
        request [textPart (Prompt.buildPrompt tint_turntable_only Sample.options);
                 inlinePart (encoded carImageFile)] in
      processCarImage api carImageFile None tint_turntable_only Sample.options
      = if readable carImageFile then
          match api sent with
          | Resolved response => (result (readResponse response), [sent])
          | Rejected e => (Throws e, [sent])
          end
        else (Throws NotAnError, []))
   ∧ (let w' := App.handleProcessImages fresh w in
      App.processedImages (App.state w') = App.processedImages (App.state w)
      ∧ App.globalError (App.state w') = Some App.uploadNotice
      ∧ App.inflight w' = App.inflight w)
   ∧ (let w' := App.handleProcessImages fresh tinted in
      App.processedImages (App.state w')
        = zip_with App.newImage (App.carImages (App.state tinted)) fresh
      ∧ App.globalError (App.state w') = None
      ∧ App.inflight w'
        = App.inflight tinted
          ++ ((λ image, App.Starting image None tint_turntable_only
                          {| floorEffect := Some (App.floorEffect (App.state tinted));
                             matchReflections :=
                               Some (App.matchReflections (App.state tinted));
                             turntableTint :=
                               Some (App.turntableTint (App.state tinted)) |})
                <$> zip_with App.newImage (App.carImages (App.state tinted)) fresh)))
  ∧ result (processCarImage api carImageFile None full Sample.options)
    = Throws MissingInput
  ∧ result (processCarImage api carImageFile None tint_turntable_only
              Sample.options)
    = Returns "data:image/png;base64,iVBOR"
  ∧ length (App.inflight (App.handleProcessImages fresh tinted)) = 1%nat.
Proof.
  split; [|by vm_compute].
  apply (missing_background_fails_before_any_call
           (λ _, Resolved Sample.imageAnswer) (Sample.car "car.jpg") full
           Sample.options [("job-1", "blob:1")] Sample.noBackground
           Sample.tintedNoBackground).
  - discriminate.
  - reflexivity.
  - reflexivity.
  - discriminate.
  - reflexivity.
  - reflexivity.
  - discriminate.
Defined.

(** C3, as stated, fails: with a car image that can no longer be read, a mode
    other than [tint-turntable-only] and no background image, the operation
    fails with the failure of the reader, which is not the missing-input
    error; it has sent nothing to the model. *)
Lemma unreadable_car_image_fails_first :
  let api := λ _ : Request, Resolved Sample.imageAnswer in
  readable Sample.lostCar = false
  ∧ result (processCarImage api Sample.lostCar None full Sample.options)
    = Throws NotAnError
  ∧ NotAnError ≠ MissingInput
  ∧ networkCalls (processCarImage api Sample.lostCar None full Sample.options) = [].
Proof. by vm_compute. Qed.

(** ** C8: the first image part is the result *)

(** C8.  When the parts of the response, in order, are [pre ++ part :: post]
    with no image part in [pre] and [part] an image part, generation and
    refinement both return the data URL made of the media type and the bytes
    of [part], whatever text parts come before or after it, and whatever is
    wrong with the response after these parts.  (Had a file not been read,
    nothing would have been asked and the failure of the reader is what is
    thrown.) *)
Theorem first_image_part_is_returned
    (api : Request → reply) (response : GenerateContentResponse)
    (pre post : list Part) (part : Part) (b : Blob)
    (carImageFile : File) (backgroundImageFile : option File)
    (mode : ProcessingMode) (options : ProcessingOptions)
    (processedImageFile : File) (correction : string) :
  (∀ req, api req = Resolved response) →
  responseParts response = pre ++ part :: post →
  Forall (λ q, isImagePart q = false) pre →
  inlineData part = Some b →
  Js.startsWith "image/" (mimeType b) = true →
  mode = tint_turntable_only ∨ is_Some backgroundImageFile →
  result (processCarImage api carImageFile backgroundImageFile mode options)
    = (if filesRead carImageFile backgroundImageFile mode
       then Returns ("data:" +:+ mimeType b +:+ ";base64," +:+ data b)
       else Throws NotAnError)
  ∧ result (correctImage api processedImageFile correction)
    = (if readable processedImageFile
       then Returns ("data:" +:+ mimeType b +:+ ";base64," +:+ data b)
       else Throws NotAnError).
Proof.
  intros Hapi Hparts Hpre Hb Himg Hbg.
  assert (readResponse response = ret (dataUrl b)) as Hread.
  { apply readResponse_image. rewrite Hparts.
    by apply firstImage_first_image. }
  split.
  - destruct (filesRead carImageFile backgroundImageFile mode) eqn:Hfiles.
    + destruct (processCarImage_sends api carImageFile backgroundImageFile
                  mode options Hbg Hfiles) as [ps ->].
      by rewrite (answered_result api ps response (Hapi _)), Hread.
    + by rewrite processCarImage_lost.
  - destruct (readable processedImageFile) eqn:Hfile.
    + destruct (correctImage_sends api processedImageFile correction Hfile)
        as [ps ->].
      by rewrite (answered_result api ps response (Hapi _)), Hread.
    + by rewrite correctImage_lost.
Qed.

Lemma first_image_part_is_returned_witness :
  let api := λ _ : Request, Resolved Sample.imageAnswer in
  result (processCarImage api (Sample.car "car.jpg") None tint_turntable_only
            Sample.options)
    = Returns ("data:" +:+ "image/png" +:+ ";base64," +:+ "iVBOR")
  ∧ result (correctImage api (Sample.car "processed_image.png")
              "make the shadow softer")
    = Returns ("data:" +:+ "image/png" +:+ ";base64," +:+ "iVBOR").
Proof.
  apply (first_image_part_is_returned
           (λ _, Resolved Sample.imageAnswer) Sample.imageAnswer
           [textPart "Here is your image."] []
           (inlinePart {| mimeType := "image/png"; data := "iVBOR" |})
           {| mimeType := "image/png"; data := "iVBOR" |}
           (Sample.car "car.jpg") None tint_turntable_only Sample.options
           (Sample.car "processed_image.png") "make the shadow softer").
  - intros req. reflexivity.
  - reflexivity.
  - repeat constructor.
  - reflexivity.
  - reflexivity.
  - left. reflexivity.
Defined.

(** ** C4: a response without an image part *)






Lemma responseFault_cases response fault :
  responseFault response = Some fault →
  fault ∈ [contentMissing; partsMissing; mimeTypeMissing].
Proof.
  unfold responseFault.
  assert (∀ rs f, (examinedParts rs).2 = Some f → f = mimeTypeMissing) as Hparts.
  { induction rs as [|[part|t] rs IH]; intros f; simpl; [done| |by intros [=]].
    destruct (examinedParts rs) as [examined fault']. simpl. apply IH. }
  induction (default [] (candidates response)) as [|c cs IH]; simpl; [done|].
  destruct (content c) as [ct|]; [|intros [= <-]; rewrite !elem_of_cons; auto].
  destruct (parts ct) as [rs|]; [|intros [= <-]; rewrite !elem_of_cons; auto].
  pose proof (Hparts rs) as Hrs.
  destruct (examinedParts rs) as [qs [f|]]; simpl in *.
  - intros [= <-]. rewrite (Hrs f eq_refl), !elem_of_cons. auto.
  - destruct (examinedCandidates cs) as [more f]. simpl in *. apply IH.
Qed.




(** ** C5 and C9: the prompts *)


(** Whatever the mode and the options, the steps of the prompt are numbered
    from 1 on without a gap. *)
Lemma steps_numbered_consecutively mode (options : ProcessingOptions) :
  ∃ n, numbering (Prompt.buildPrompt mode options) = seq 1 n.
Proof.
  destruct options as [fe mr tt].
  destruct mode.
  - by exists 4%nat.
  - destruct fe as [[]|], mr as [[]|];
      first [by exists 5%nat | by exists 6%nat | by exists 7%nat].
  - destruct tt as [[]|]; first [by exists 5%nat | by exists 6%nat].
  - destruct tt as [[]|]; by exists 3%nat.
Qed.

(** The clauses of an option do appear in the modes that use the option. *)
Lemma relevant_options_included :
  Js.includes Prompt.floorDesaturate
    (Prompt.buildPrompt partial_wall
       {| floorEffect := Some fe_desaturate; matchReflections := None;
          turntableTint := None |}) = true
  ∧ Js.includes Prompt.reflections
      (Prompt.buildPrompt partial_wall
         {| floorEffect := None; matchReflections := Some true;
            turntableTint := None |}) = true
  ∧ Js.includes Prompt.tintYellow
      (Prompt.buildPrompt turntable_tint
         {| floorEffect := None; matchReflections := None;
            turntableTint := Some tt_yellow |}) = true
  ∧ Forall (λ tt,
              Js.includes
                "color overlay with exactly 15% opacity ONLY to the top surface of the turntable"
                (Prompt.buildPrompt tint_turntable_only
                   {| floorEffect := None; matchReflections := None;
                      turntableTint := tt |}) = true)
           [None; Some tt_none; Some tt_red; Some tt_yellow].
Proof. split_and!; [by vm_compute..|]. repeat constructor. Qed.

(** C9.  Under [full], [turntable-tint] and [tint-turntable-only] the prompt
    contains no floor-effect and no reflections clause and does not depend
    on these two options; under [full] and [partial-wall] it contains no
    turntable-tint clause and does not depend on that option. *)
Theorem irrelevant_options_excluded :
  Forall (λ mode, ∀ options : ProcessingOptions,
            Forall (λ clause, Js.includes clause (Prompt.buildPrompt mode options) = false)
                   (floorEffectClauses ++ matchReflectionsClauses)
            ∧ ∀ fe mr,
                Prompt.buildPrompt mode options
                = Prompt.buildPrompt mode
                    {| floorEffect := fe; matchReflections := mr;
                       turntableTint := turntableTint options |})
         [full; turntable_tint; tint_turntable_only]
  ∧ Forall (λ mode, ∀ options : ProcessingOptions,
              Forall (λ clause, Js.includes clause (Prompt.buildPrompt mode options) = false)
                     turntableTintClauses
              ∧ ∀ tt,
                  Prompt.buildPrompt mode options
                  = Prompt.buildPrompt mode
                      {| floorEffect := floorEffect options;
                         matchReflections := matchReflections options;
                         turntableTint := tt |})
           [full; partial_wall].
Proof.
  unfold floorEffectClauses, matchReflectionsClauses, turntableTintClauses.
  cbn [app].
  split; repeat (apply Forall_cons_2 || apply Forall_nil_2);
    intros [fe mr tt]; (split; [|intros; reflexivity]).
  - repeat (apply Forall_cons_2 || apply Forall_nil_2); by vm_compute.
  - destruct tt as [[]|];
      repeat (apply Forall_cons_2 || apply Forall_nil_2); by vm_compute.
  - destruct tt as [[]|];
      repeat (apply Forall_cons_2 || apply Forall_nil_2); by vm_compute.
  - repeat (apply Forall_cons_2 || apply Forall_nil_2); by vm_compute.
  - destruct fe as [[]|], mr as [[]|];
      repeat (apply Forall_cons_2 || apply Forall_nil_2); by vm_compute.
Qed.

(** ** C7: the name of an exported file *)

Section Filenames.

Implicit Types (c : ascii) (s base ext : string).

Lemma split_nonempty c s : Js.split c s ≠ [].
Proof.
  destruct s as [|a s]; simpl; [done|].
  destruct (Ascii.eqb a c); [done|]. by destruct (Js.split c s).
Qed.

Lemma split_no_separator c s : occurs c s = false → Js.split c s = [s].
Proof.
  induction s as [|a s IH]; simpl; [done|].
  destruct (Ascii.eqb a c); simpl; [done|].
  intros H. by rewrite (IH H).
Qed.

Lemma split_append c s1 s2 :
  Js.split c (s1 +:+ String c s2) = Js.split c s1 ++ Js.split c s2.
Proof.
  induction s1 as [|a s1 IH]; simpl.
  - by rewrite Ascii.eqb_refl.
  - destruct (Ascii.eqb a c); simpl; [by rewrite IH|].
    rewrite IH. pose proof (split_nonempty c s1) as Hne.
    by destruct (Js.split c s1).
Qed.

Lemma join_split c s : Js.join (String c EmptyString) (Js.split c s) = s.
Proof.
  induction s as [|a s IH]; simpl; [done|].
  destruct (Ascii.eqb a c) eqn:Hac.
  - apply Ascii.eqb_eq in Hac as ->.
    pose proof (split_nonempty c s) as Hne.
    destruct (Js.split c s) as [|piece pieces]; [done|].
    simpl in *. by rewrite IH.
  - pose proof (split_nonempty c s) as Hne.
    destruct (Js.split c s) as [|piece pieces]; [done|].
    destruct pieces as [|piece' pieces]; simpl in *; by rewrite <- IH.
Qed.

(** With a ['.'] in the name, the name is cut at its last ['.']. *)
Lemma getOutputFilename_with_dot base ext :
  occurs "."%char ext = false →
  App.getOutputFilename (base +:+ "." +:+ ext)
  = base +:+ "-processed." +:+ (if Js.truthy ext then ext else "png").
Proof.
  intros Hext. unfold App.getOutputFilename, Js.pop.
  change ("." +:+ ext) with (String "."%char ext).
  rewrite split_append, (split_no_separator _ ext Hext).
  rewrite last_snoc, removelast_last.
  by rewrite (join_split "."%char base).
Qed.

(** Without any ['.'], the whole name is taken for the extension and the
    base name is empty. *)
Lemma getOutputFilename_without_dot s :
  occurs "."%char s = false →
  App.getOutputFilename s
  = "-processed." +:+ (if Js.truthy s then s else "png").
Proof.
  intros Hs. unfold App.getOutputFilename, Js.pop.
  by rewrite (split_no_separator _ s Hs).
Qed.

End Filenames.

(** C7.  The name [photo] has no ['.']: the specification names its export
    [photo-processed.png], while [getOutputFilename] takes the whole name for
    the extension and returns [-processed.photo].  With a ['.'] in the name
    the two agree. *)
Theorem getOutputFilename_name_without_extension :
  App.getOutputFilename "photo" = "-processed.photo"
  ∧ App.getOutputFilename "photo" ≠ "photo-processed.png"
  ∧ App.getOutputFilename "photo.jpg" = "photo-processed.jpg"
  ∧ App.getOutputFilename "photo." = "photo-processed.png".
Proof. by vm_compute. Qed.

(** ** Updates of the list of processed images *)

Section Updates.

Import App.

Implicit Types (prev : list ProcessedImage) (p q : ProcessedImage)
  (f : ProcessedImage → ProcessedImage) (imageId : string).

Lemma settled_id o p : id (settled o p) = id p.
Proof. by destruct o. Qed.

Lemma updateImage_lookup imageId f prev i :
  updateImage imageId f prev !! i
  = (λ p, if decide (id p = imageId) then f p else p) <$> prev !! i.
Proof. unfold updateImage. apply list_lookup_fmap. Qed.

Lemma updateImage_lookup_ne imageId f prev i p :
  prev !! i = Some p → id p ≠ imageId →
  updateImage imageId f prev !! i = Some p.
Proof.
  intros Hp Hne. rewrite updateImage_lookup, Hp. simpl. by rewrite decide_False.
Qed.

Lemma updateImage_lookup_eq imageId f prev i p :
  prev !! i = Some p → id p = imageId →
  updateImage imageId f prev !! i = Some (f p).
Proof.
  intros Hp Heq. rewrite updateImage_lookup, Hp. simpl. by rewrite decide_True.
Qed.

Lemma updateImage_length imageId f prev :
  length (updateImage imageId f prev) = length prev.
Proof. apply length_fmap. Qed.

Lemma updateImage_ids imageId f prev :
  (∀ p, id (f p) = id p) →
  id <$> updateImage imageId f prev = id <$> prev.
Proof.
  intros Hf. unfold updateImage. rewrite <- list_fmap_compose.
  apply list_fmap_ext. intros _ p _. simpl. by case_decide.
Qed.

Lemma updateImage_elem imageId f prev q :
  q ∈ updateImage imageId f prev →
  ∃ p, p ∈ prev ∧ q = if decide (id p = imageId) then f p else p.
Proof.
  unfold updateImage. rewrite list_elem_of_fmap. intros (p & -> & Hp). eauto.
Qed.

Lemma updateImage_Forall (P : ProcessedImage → Prop) imageId f prev :
  (∀ p, P p → id p = imageId → P (f p)) →
  Forall P prev → Forall P (updateImage imageId f prev).
Proof.
  intros Hf Hprev. unfold updateImage. apply Forall_fmap.
  eapply Forall_impl; [exact Hprev|]. intros p Hp. simpl.
  case_decide; auto.
Qed.

End Updates.

(** ** Results are never empty *)

Section Truthy.

Variable api : Request → reply.

Lemma answered_truthy ps url :
  result (await response := generateContent api (request ps) in
          readResponse response) = Returns url →
  Js.truthy url = true.
Proof.
  unfold generateContent, bind.
  destruct (api (request ps)) as [r|e]; [|done].
  destruct (readResponse r) as [o sent] eqn:Hread. simpl. intros ->.
  apply (readResponse_truthy r). by rewrite Hread.
Qed.

Lemma processCarImage_truthy carImageFile backgroundImageFile mode options url :
  result (processCarImage api carImageFile backgroundImageFile mode options)
    = Returns url →
  Js.truthy url = true.
Proof.
  destruct (processCarImage_cases api carImageFile backgroundImageFile
              mode options) as [[ps ->]|[e ->]]; [|done].
  apply answered_truthy.
Qed.

Lemma correctImage_truthy processedImageFile correction url :
  result (correctImage api processedImageFile correction) = Returns url →
  Js.truthy url = true.
Proof.
  destruct (correctImage_cases api processedImageFile correction)
    as [[ps ->]|[e ->]]; [|done].
  apply answered_truthy.
Qed.

End Truthy.

Lemma generationOutcome_truthy r image backgroundImage mode options url :
  App.generationOutcome r image backgroundImage mode options = Returns url →
  Js.truthy url = true.
Proof. apply processCarImage_truthy. Qed.

Lemma correctionAttempt_truthy fetched r correction url :
  result (App.correctionAttempt fetched r correction) = Returns url →
  Js.truthy url = true.
Proof.
  unfold App.correctionAttempt. destruct fetched as [blob|e]; [|done].
  change (Returns blob, []) with (ret (A:=App.FetchedBlob) blob).
  rewrite bind_ret_l. apply correctImage_truthy.
Qed.

(** ** The invariant of the application *)

Section Invariant.

Import App Inv.

Implicit Types (w : World) (p q : ProcessedImage) (t : Task)
  (jobs : list ProcessedImage) (ids : list string).

Lemma lookup_split {A} (l : list A) n x :
  l !! n = Some x →
  ∃ l1 l2, l = l1 ++ x :: l2 ∧ delete n l = l1 ++ l2
           ∧ ∀ y, <[n:=y]> l = l1 ++ y :: l2.
Proof.
  intros Hn. exists (take n l), (drop (S n) l). split_and!.
  - by rewrite take_drop_middle.
  - apply delete_take_drop.
  - intros y. apply insert_take_drop. by eapply lookup_lt_Some.
Qed.

Lemma NoDup_fmap_eq {A B} (f : A → B) (l : list A) x y :
  NoDup (f <$> l) → x ∈ l → y ∈ l → f x = f y → x = y.
Proof.
  intros Hnd [i Hi]%list_elem_of_lookup [j Hj]%list_elem_of_lookup Hxy.
  assert (i = j) as ->.
  { eapply NoDup_lookup; [exact Hnd| |].
    - by rewrite list_lookup_fmap, Hi.
    - by rewrite list_lookup_fmap, Hj, Hxy. }
  congruence.
Qed.

Lemma jobOk_toProcessing p : jobOk (toProcessing p).
Proof. by split. Qed.

Lemma jobOk_toProcessingAgain p : jobOk (toProcessingAgain p).
Proof. by split. Qed.

Lemma jobOk_settled o p :
  (∀ url, o = Returns url → Js.truthy url = true) → jobOk (settled o p).
Proof. intros Ho. destruct o as [url|e]; split; simpl; try done. eauto. Qed.

Lemma taskOk_updateImage jobs ids t imageId f :
  (∀ p, id (f p) = id p) →
  (∀ p, p ∈ jobs → id p = imageId → id p = taskId t →
        taskReq t p → taskReq t (f p)) →
  taskOk jobs ids t → taskOk (updateImage imageId f jobs) ids t.
Proof.
  intros Hid Hf [Hin Hreq]. split; [done|].
  intros q (p & Hp & ->)%updateImage_elem Hq.
  case_decide as Hp'.
  - rewrite Hid in Hq. apply Hf; auto.
  - auto.
Qed.

Lemma taskReq_toProcessing t p : taskReq t p → taskReq t (toProcessing p).
Proof. destruct t; simpl; intuition. Qed.

Lemma taskReq_toProcessingAgain t p :
  taskReq t p → taskReq t (toProcessingAgain p).
Proof. destruct t; simpl; intuition. Qed.

Lemma taskOk_same_id jobs ids t t' :
  taskId t = taskId t' → (∀ p, taskReq t p ↔ taskReq t' p) →
  taskOk jobs ids t → taskOk jobs ids t'.
Proof.
  intros Hid Hreq [Hin H]. split; [by rewrite <- Hid|].
  intros p Hp Hp'. apply Hreq, H; [done|]. by rewrite Hid.
Qed.

(** A world with the same images, tasks and ids has the invariant too. *)
Lemma invariant_frame w w' :
  processedImages (state w') = processedImages (state w) →
  inflight w' = inflight w → issued w' = issued w →
  invariant w → invariant w'.
Proof.
  intros Hjobs Htasks Hids [H1 H2 H3 H4 H5].
  split; rewrite ?Hjobs, ?Htasks, ?Hids; done.
Qed.

Lemma invariant_initial : invariant initialWorld.
Proof. split; simpl; constructor. Qed.

(** The first statement of an image's callback. *)
Lemma invariant_start w n image bg mode options :
  invariant w →
  inflight w !! n = Some (Starting image bg mode options) →
  invariant
    {| state := startGeneration image (state w);
       inflight := <[n := Generating image bg mode options]> (inflight w);
       issued := issued w |}.
Proof.
  intros [H1 H2 H3 H4 H5] Hn.
  destruct (lookup_split _ _ _ Hn) as (l1 & l2 & Hl & _ & Hins).
  split; simpl.
  - apply updateImage_Forall; [|done]. intros. apply jobOk_toProcessing.
  - by rewrite updateImage_ids.
  - apply updateImage_Forall; [|done]. done.
  - rewrite Hins. rewrite Hl in H4. by rewrite omap_app in *.
  - rewrite Hins. rewrite Hl in H5.
    apply Forall_app in H5 as [H5a H5b]. apply Forall_cons in H5b as [H5b H5c].
    assert (∀ t, taskOk (processedImages (state w)) (issued w) t →
                 taskOk (updateImage (id image) toProcessing
                           (processedImages (state w))) (issued w) t) as Hupd.
    { intros t. apply taskOk_updateImage; [done|].
      intros. by apply taskReq_toProcessing. }
    apply Forall_app; split; [|apply Forall_cons; split].
    + eapply Forall_impl; [exact H5a|done].
    + apply Hupd. eapply taskOk_same_id; [| |exact H5b]; done.
    + eapply Forall_impl; [exact H5c|done].
Qed.

Lemma other_generation (l1 l2 : list Task) x t g :
  NoDup (omap generationId (l1 ++ x :: l2)) →
  generationId x = Some g → t ∈ l1 ++ l2 → generationId t ≠ Some g.
Proof.
  rewrite omap_app. simpl. intros Hnd Hx Ht Hg. rewrite Hx in Hnd.
  apply NoDup_app in Hnd as (_ & Hdisj & [Hg2 _]%NoDup_cons).
  apply elem_of_app in Ht as [Ht|Ht].
  - apply (Hdisj g); [|by left]. apply list_elem_of_omap. eauto.
  - apply Hg2. apply list_elem_of_omap. eauto.
Qed.

Lemma generations_without (l1 l2 : list Task) x :
  NoDup (omap generationId (l1 ++ x :: l2)) →
  NoDup (omap generationId (l1 ++ l2)).
Proof.
  rewrite !omap_app. simpl. intros (H1 & Hdisj & H2)%NoDup_app.
  apply NoDup_app. split_and!; [done| |].
  - intros g Hg Hg2. apply (Hdisj g Hg).
    destruct (generationId x); [by right|done].
  - destruct (generationId x); [by apply NoDup_cons in H2 as [_ ?]|done].
Qed.

(** A generation settles. *)
Lemma invariant_generationSettled w n r image bg mode options :
  invariant w →
  inflight w !! n = Some (Generating image bg mode options) →
  invariant
    {| state := finishGeneration r image bg mode options (state w);
       inflight := delete n (inflight w);
       issued := issued w |}.
Proof.
  intros [H1 H2 H3 H4 H5] Hn.
  destruct (lookup_split _ _ _ Hn) as (l1 & l2 & Hl & Hdel & _).
  rewrite Hl in H4, H5.
  assert (taskOk (processedImages (state w)) (issued w)
            (Generating image bg mode options)) as [_ Hmine].
  { apply Forall_app in H5 as [_ [? _]%Forall_cons]. done. }
  split; simpl; unfold settle.
  - apply updateImage_Forall; [|done]. intros p _ _. apply jobOk_settled.
    apply generationOutcome_truthy.
  - rewrite updateImage_ids; [done|]. apply settled_id.
  - apply updateImage_Forall; [|done]. intros p Hp _. by rewrite settled_id.
  - rewrite Hdel. by eapply generations_without.
  - rewrite Hdel. apply Forall_forall. intros t Ht.
    apply taskOk_updateImage; [apply settled_id| |].
    + intros p Hp Hp1 Hp2 Hreq. exfalso.
      destruct t as [image' ? ? ?|image' ? ? ?|imageId ? ?]; simpl in *.
      * eapply (other_generation l1 l2); [exact H4|done|exact Ht|].
        simpl. congruence.
      * eapply (other_generation l1 l2); [exact H4|done|exact Ht|].
        simpl. congruence.
      * destruct (Hmine p Hp Hp1) as [_ Hnone]. by rewrite Hnone in Hreq.
    + rewrite Forall_forall in H5. apply H5.
      apply elem_of_app in Ht as [Ht|Ht]; apply elem_of_app;
        [by left|right; by right].
Qed.

(** A correction settles. *)
Lemma invariant_correctionSettled w n fetched r imageId imageToCorrect correction :
  invariant w →
  inflight w !! n = Some (Correcting imageId imageToCorrect correction) →
  invariant
    {| state := finishCorrection fetched r imageId correction (state w);
       inflight := delete n (inflight w);
       issued := issued w |}.
Proof.
  intros [H1 H2 H3 H4 H5] Hn.
  destruct (lookup_split _ _ _ Hn) as (l1 & l2 & Hl & Hdel & _).
  rewrite Hl in H4, H5.
  assert (taskOk (processedImages (state w)) (issued w)
            (Correcting imageId imageToCorrect correction)) as [_ Hmine].
  { apply Forall_app in H5 as [_ [? _]%Forall_cons]. done. }
  split; simpl; unfold settle.
  - apply updateImage_Forall; [|done]. intros p _ _. apply jobOk_settled.
    apply correctionAttempt_truthy.
  - rewrite updateImage_ids; [done|]. apply settled_id.
  - apply updateImage_Forall; [|done]. intros p Hp _. by rewrite settled_id.
  - rewrite Hdel. by eapply generations_without.
  - rewrite Hdel. apply Forall_forall. intros t Ht.
    apply taskOk_updateImage; [apply settled_id| |].
    + intros p Hp Hp1 Hp2 Hreq.
      pose proof (Hmine p Hp Hp1) as Htruthy. simpl in Htruthy.
      destruct t as [image' ? ? ?|image' ? ? ?|imageId' ? ?]; simpl in *.
      * destruct Hreq as [_ Hnone]. by rewrite Hnone in Htruthy.
      * destruct Hreq as [_ Hnone]. by rewrite Hnone in Htruthy.
      * destruct (result (correctionAttempt fetched r correction))
          as [url|e] eqn:Ho; simpl; [|done].
        by eapply correctionAttempt_truthy.
    + rewrite Forall_forall in H5. apply H5.
      apply elem_of_app in Ht as [Ht|Ht]; apply elem_of_app;
        [by left|right; by right].
Qed.

Lemma find_by_id jobs imageId q :
  List.find (λ p, bool_decide (id p = imageId)) jobs = Some q →
  q ∈ jobs ∧ id q = imageId.
Proof.
  intros [Hin Hid]%find_some. split; [by apply list_elem_of_In|].
  by apply bool_decide_eq_true in Hid.
Qed.

(** A refinement is requested. *)
Lemma invariant_correctImage w imageId correction :
  invariant w → invariant (handleCorrectImage imageId correction w).
Proof.
  intros Hinv. unfold handleCorrectImage.
  destruct (List.find _ _) as [q|] eqn:Hfind;
    [|by eapply invariant_frame; [| | |exact Hinv]].
  destruct (Js.truthy_opt (processedUrl q)) eqn:Hurl;
    [|by eapply invariant_frame; [| | |exact Hinv]].
  apply find_by_id in Hfind as [Hq Hqid].
  destruct Hinv as [H1 H2 H3 H4 H5].
  split; simpl.
  - apply updateImage_Forall; [|done]. intros. apply jobOk_toProcessingAgain.
  - by rewrite updateImage_ids.
  - by apply updateImage_Forall.
  - rewrite omap_app. simpl. by rewrite app_nil_r.
  - apply Forall_app. split.
    + eapply Forall_impl; [exact H5|]. intros t. simpl.
      apply taskOk_updateImage; [done|]. intros. by apply taskReq_toProcessingAgain.
    + apply Forall_singleton. split; simpl.
      * rewrite Forall_forall in H3. rewrite <- Hqid. by apply H3.
      * intros p' (p & Hp & ->)%updateImage_elem Hp'.
        case_decide as Hpid; [|done]. simpl.
        assert (p = q) as -> by (eapply NoDup_fmap_eq; eauto; congruence).
        done.
Qed.

Lemma newImages_ids (cars : list File) (fresh : list (string * string)) :
  length fresh = length cars →
  id <$> zip_with newImage cars fresh = fresh.*1.
Proof.
  revert fresh. induction cars as [|car cars IH]; intros [|[uuid url] fresh] Hlen;
    simplify_eq/=; [done|]. f_equal. by apply IH.
Qed.

Lemma newImages_pending (cars : list File) (fresh : list (string * string)) p :
  p ∈ zip_with newImage cars fresh → status p = pending ∧ processedUrl p = None.
Proof.
  revert fresh. induction cars as [|car cars IH]; intros [|[uuid url] fresh];
    simpl; try by intros ?%elem_of_nil.
  intros [->|Hp]%elem_of_cons; [done|]. by eapply IH.
Qed.

Lemma starting_ids jobs bg mode options :
  omap generationId ((λ image, Starting image bg mode options) <$> jobs)
  = id <$> jobs.
Proof. induction jobs as [|p jobs IH]; [done|]. simpl. f_equal. exact IH. Qed.

(** A batch is submitted. *)
Lemma invariant_processImages w fresh :
  invariant w → submissionRejected (state w) = false → freshIds fresh w →
  invariant (handleProcessImages fresh w).
Proof.
  intros [H1 H2 H3 H4 H5] Hrej (Hlen & Hnd & Hfresh).
  unfold handleProcessImages. rewrite Hrej. simpl.
  pose proof (newImages_ids (carImages (state w)) fresh Hlen) as Hids.
  set (jobs' := zip_with newImage (carImages (state w)) fresh) in *.
  assert (∀ t, t ∈ inflight w → taskId t ∈ issued w) as Hold.
  { intros t Ht. rewrite Forall_forall in H5. by destruct (H5 t Ht). }
  assert (∀ p, p ∈ jobs' → id p ∉ issued w) as Hnew.
  { intros p Hp. rewrite Forall_forall in Hfresh. apply Hfresh.
    rewrite <- Hids. by apply list_elem_of_fmap_2. }
  split; simpl.
  - apply Forall_forall. intros p [Hst Hurl]%newImages_pending.
    split; [by rewrite Hst|done].
  - by rewrite Hids.
  - apply Forall_forall. intros p Hp. apply elem_of_app. right.
    by apply list_elem_of_fmap_2.
  - rewrite omap_app, starting_ids. apply NoDup_app. split_and!; [done| |by rewrite Hids].
    intros g (t & Ht & Hg)%list_elem_of_omap (p & -> & Hp)%list_elem_of_fmap.
    apply (Hnew p Hp). replace (id p) with (taskId t); [by apply Hold|].
    destruct t; simpl in *; congruence.
  - apply Forall_app. split.
    + apply Forall_forall. intros t Ht. split.
      * apply elem_of_app. left. by apply Hold.
      * intros p Hp Hpid. exfalso. apply (Hnew p Hp). rewrite Hpid. by apply Hold.
    + apply Forall_fmap, Forall_forall. intros image Himage. split; simpl.
      * apply elem_of_app. right. by apply list_elem_of_fmap_2.
      * intros p [Hst Hurl]%newImages_pending _. split; [by left|done].
Qed.

Lemma setProcessingMode_processedImages mode s :
  processedImages (setProcessingMode mode s) = processedImages s.
Proof. unfold setProcessingMode. by repeat case_decide. Qed.

Lemma handleBackgroundImageSelected_processedImages files s :
  processedImages (handleBackgroundImageSelected files s) = processedImages s.
Proof. by destruct files. Qed.

(** Every event keeps the invariant. *)
Lemma invariant_step w e w' :
  invariant w → step w e = Some w' → invariant w'.
Proof.
  intros Hinv Hstep.
  destruct e; simpl in Hstep;
    try solve
      [ injection Hstep as <-;
        eapply invariant_frame; [| | |exact Hinv];
        first [ done
              | apply handleBackgroundImageSelected_processedImages
              | apply setProcessingMode_processedImages ] ].
  - destruct (submissionRejected (state w)) eqn:Hrej.
    + injection Hstep as <-. unfold handleProcessImages. rewrite Hrej.
      by eapply invariant_frame; [| | |exact Hinv].
    + case_decide as Hfresh; [|done]. injection Hstep as <-.
      by apply invariant_processImages.
  - destruct (inflight w !! n) as [[]|] eqn:Hn; try done.
    injection Hstep as <-. by apply invariant_start.
  - destruct (inflight w !! n) as [[]|] eqn:Hn; try done.
    injection Hstep as <-. by apply invariant_generationSettled.
  - injection Hstep as <-. by apply invariant_correctImage.
  - destruct (inflight w !! n) as [[]|] eqn:Hn; try done.
    injection Hstep as <-. by eapply invariant_correctionSettled.
Qed.

Lemma invariant_run w es w' :
  invariant w → run w es = Some w' → invariant w'.
Proof.
  revert w. induction es as [|e es IH]; intros w Hinv; simpl.
  - by intros [= <-].
  - destruct (step w e) as [w1|] eqn:Hstep; [|done].
    apply IH. by eapply invariant_step.
Qed.

Lemma reachable_invariant w : reachable w → invariant w.
Proof. intros [es Hrun]. eapply invariant_run; [apply invariant_initial|done]. Qed.

Lemma reachable_run w es w' : reachable w → run w es = Some w' → reachable w'.
Proof.
  intros [es0 H0] Hrun. exists (es0 ++ es).
  revert H0. generalize initialWorld. induction es0 as [|e es0 IH]; simpl.
  - by intros ? [= ->].
  - intros w0. destruct (step w0 e); [apply IH|done].
Qed.

End Invariant.

(** ** The sample runs *)

Lemma oneDone_reachable : App.reachable Sample.oneDone.
Proof. exists Sample.oneDoneRun. by vm_compute. Qed.

Lemma failedRefinement_reachable : App.reachable Sample.failedRefinement.
Proof. exists Sample.failedRefinementRun. by vm_compute. Qed.

Lemma failedGeneration_reachable : App.reachable Sample.failedGeneration.
Proof. exists Sample.failedGenerationRun. by vm_compute. Qed.

Lemma threeDone_reachable : App.reachable Sample.threeDone.
Proof. exists Sample.threeDoneRun. by vm_compute. Qed.

(** ** The events, case by case *)

Section Events.

Import App Inv.

Implicit Types (w : World) (p q : ProcessedImage) (t : Task).

(** Induction on the events that lead to a reachable world. *)
Lemma reachable_ind (P : World → Prop) :
  P initialWorld →
  (∀ w e w', reachable w → P w → step w e = Some w' → P w') →
  ∀ w, reachable w → P w.
Proof.
  intros Hinit Hstep w [es Hrun].
  assert (reachable initialWorld) as H0 by by exists [].
  revert Hrun H0 Hinit. generalize initialWorld.
  induction es as [|e es IH]; intros w0 Hrun Hw0 HP; simpl in Hrun.
  - by injection Hrun as <-.
  - destruct (step w0 e) as [w1|] eqn:He; [|done].
    apply (IH w1 Hrun).
    + apply (reachable_run w0 [e]); [done|]. simpl. by rewrite He.
    + by eapply Hstep.
Qed.

(** The images after an event: those of a new batch, or the same images
    with one update applied to those of one id. *)
Lemma step_images w e w' :
  step w e = Some w' →
  (∃ fresh, e = ProcessImages fresh
            ∧ submissionRejected (state w) = false
            ∧ freshIds fresh w
            ∧ w' = handleProcessImages fresh w
            ∧ processedImages (state w')
              = zip_with newImage (carImages (state w)) fresh)
  ∨ (processedImages (state w') = processedImages (state w)
     ∧ inflight w' = inflight w)
  ∨ (∃ n image bg mode options,
        e = GenerationStarted n
        ∧ inflight w !! n = Some (Starting image bg mode options)
        ∧ inflight w' = <[n := Generating image bg mode options]> (inflight w)
        ∧ processedImages (state w')
          = updateImage (id image) toProcessing (processedImages (state w)))
  ∨ (∃ n r image bg mode options,
        e = GenerationSettled n r
        ∧ inflight w !! n = Some (Generating image bg mode options)
        ∧ inflight w' = delete n (inflight w)
        ∧ processedImages (state w')
          = updateImage (id image)
              (settled (generationOutcome r image bg mode options))
              (processedImages (state w)))
  ∨ (∃ imageId correction q,
        e = CorrectImage imageId correction
        ∧ q ∈ processedImages (state w) ∧ id q = imageId
        ∧ Js.truthy_opt (processedUrl q) = true
        ∧ inflight w' = inflight w ++ [Correcting imageId q correction]
        ∧ processedImages (state w')
          = updateImage imageId toProcessingAgain (processedImages (state w)))
  ∨ (∃ n fetched r imageId imageToCorrect correction,
        e = CorrectionSettled n fetched r
        ∧ inflight w !! n = Some (Correcting imageId imageToCorrect correction)
        ∧ inflight w' = delete n (inflight w)
        ∧ processedImages (state w')
          = updateImage imageId
              (settled (result (correctionAttempt fetched r correction)))
              (processedImages (state w))).
Proof.
  intros Hstep.
  destruct e; simpl in Hstep;
    try (injection Hstep as <-; right; left; split; [|done]; simpl;
         rewrite ?handleBackgroundImageSelected_processedImages,
                 ?setProcessingMode_processedImages; done).
  - destruct (submissionRejected (state w)) eqn:Hrej.
    + injection Hstep as <-. right. left. unfold handleProcessImages.
      rewrite Hrej. by split.
    + case_decide as Hfresh; [|done]. injection Hstep as <-.
      left. exists fresh. split_and!; try done.
      unfold handleProcessImages. by rewrite Hrej.
  - destruct (inflight w !! n) as [[image bg mode options| |]|] eqn:Hn; try done.
    injection Hstep as <-. do 2 right. left. by exists n, image, bg, mode, options.
  - destruct (inflight w !! n) as [[|image bg mode options|]|] eqn:Hn; try done.
    injection Hstep as <-. do 3 right. left.
    by exists n, r, image, bg, mode, options.
  - injection Hstep as <-. unfold handleCorrectImage.
    destruct (List.find _ _) as [q|] eqn:Hfind;
      [|right; left; by split].
    destruct (Js.truthy_opt (processedUrl q)) eqn:Hurl;
      [|right; left; by split].
    apply find_by_id in Hfind as [Hq Hid].
    do 4 right. left. by exists imageId, correction, q.
  - destruct (inflight w !! n) as [[| |imageId itc correction]|] eqn:Hn; try done.
    injection Hstep as <-. do 4 right. right.
    by exists n, fetched, r, imageId, itc, correction.
Qed.

End Events.

(** ** Requests for a refinement *)

Section Refinement.

Import App Inv.

Implicit Types (w : World) (p q : ProcessedImage) (jobs : list ProcessedImage).

Lemma find_by_id_first jobs j q :
  NoDup (id <$> jobs) → jobs !! j = Some q →
  List.find (λ p, bool_decide (id p = id q)) jobs = Some q.
Proof.
  intros Hnd Hj.
  assert (q ∈ jobs) as Hq by (apply list_elem_of_lookup; eauto).
  destruct (List.find _ jobs) as [q0|] eqn:Hfind.
  - apply find_by_id in Hfind as [Hq0 Hid]. f_equal.
    by eapply NoDup_fmap_eq.
  - apply find_none with (x := q) in Hfind; [|by apply list_elem_of_In].
    by rewrite bool_decide_eq_true_2 in Hfind.
Qed.

(** A request for an image that has a result is taken up ... *)
Lemma handleCorrectImage_accepts w j q correction :
  invariant w → processedImages (state w) !! j = Some q →
  Js.truthy_opt (processedUrl q) = true →
  handleCorrectImage (id q) correction w
  = {| state := setProcessedImages (updateImage (id q) toProcessingAgain) (state w);
       inflight := inflight w ++ [Correcting (id q) q correction];
       issued := issued w |}.
Proof.
  intros Hinv Hj Hurl. unfold handleCorrectImage.
  by rewrite (find_by_id_first _ j q (inv_ids w Hinv) Hj), Hurl.
Qed.

(** ... and a request for an image that has none is turned down. *)
Lemma handleCorrectImage_rejects w j q correction :
  invariant w → processedImages (state w) !! j = Some q →
  Js.truthy_opt (processedUrl q) = false →
  handleCorrectImage (id q) correction w
  = {| state := setGlobalError (Some refineNotice) (state w);
       inflight := inflight w; issued := issued w |}.
Proof.
  intros Hinv Hj Hurl. unfold handleCorrectImage.
  by rewrite (find_by_id_first _ j q (inv_ids w Hinv) Hj), Hurl.
Qed.

Lemma updateImage_others jobs j q f k :
  NoDup (id <$> jobs) → jobs !! j = Some q → k ≠ j →
  updateImage (id q) f jobs !! k = jobs !! k.
Proof.
  intros Hnd Hj Hk. rewrite updateImage_lookup.
  destruct (jobs !! k) as [p|] eqn:Hp; simpl; [|done].
  case_decide as Hid; [|done]. exfalso. apply Hk.
  eapply NoDup_lookup; [exact Hnd| |].
  - by rewrite list_lookup_fmap, Hp.
  - by rewrite list_lookup_fmap, Hj, Hid.
Qed.

End Refinement.

(** ** C1: results and statuses *)

(** C1, as amended.  In every reachable world, an image whose status is
    [done] has a result and an image whose status is [pending] has none. *)
Theorem done_has_result (w : App.World) (p : ProcessedImage) :
  App.reachable w →
  p ∈ App.processedImages (App.state w) →
  (status p = done → ∃ url, processedUrl p = Some url ∧ Js.truthy url = true)
  ∧ (status p = pending → processedUrl p = None).
Proof.
  intros Hw Hp. apply reachable_invariant in Hw.
  pose proof (Inv.inv_jobs w Hw) as Hjobs. rewrite Forall_forall in Hjobs.
  destruct (Hjobs p Hp) as [Hdone Hpending]. split; [|done].
  intros Hst. specialize (Hdone Hst).
  destruct (processedUrl p) as [url|]; [eauto|done].
Qed.

Lemma done_has_result_witness :
  (status Sample.doneJob = done →
   ∃ url, processedUrl Sample.doneJob = Some url ∧ Js.truthy url = true)
  ∧ (status Sample.doneJob = pending → processedUrl Sample.doneJob = None).
Proof.
  apply (done_has_result Sample.oneDone Sample.doneJob).
  - exists Sample.oneDoneRun. vm_compute. reflexivity.
  - vm_compute. left.
Defined.

(** C1, as stated, fails: after a refinement that failed, the image is in
    [error] and still has the result of its generation. *)
Lemma result_without_done :
  App.run App.initialWorld Sample.failedRefinementRun = Some Sample.failedRefinement
  ∧ (∃ p, App.processedImages (App.state Sample.failedRefinement) = [p]
          ∧ status p = error
          ∧ processedUrl p = Some "data:image/png;base64,iVBOR")
  ∧ ¬ (∀ w p, App.reachable w → p ∈ App.processedImages (App.state w) →
              (processedUrl p ≠ None ↔ status p = done)).
Proof.
  split; [by vm_compute|]. split; [eexists; by vm_compute|].
  intros H.
  destruct (H Sample.failedRefinement (Sample.job Sample.failedRefinement 0))
    as [H1 _].
  - apply failedRefinement_reachable.
  - vm_compute. left.
  - assert (status (Sample.job Sample.failedRefinement 0) = done) as Hdone
      by (apply H1; by vm_compute).
    by vm_compute in Hdone.
Qed.

(** ** C2: refining an image in [error] *)

Section Screens.

Import App Inv.

Implicit Types (w : World) (p q : ProcessedImage) (t : Task)
  (jobs : list ProcessedImage).

Lemma screen_step w e w' :
  Screen.step w e = Some w' → step w e = Some w' ∧ Screen.allows w e = true.
Proof. unfold Screen.step. by destruct (Screen.allows w e). Qed.

Lemma screen_run w es w' : Screen.run w es = Some w' → run w es = Some w'.
Proof.
  revert w. induction es as [|e es IH]; intros w; simpl; [done|].
  destruct (Screen.step w e) as [w1|] eqn:Hstep; [|done].
  apply screen_step in Hstep as [-> _]. apply IH.
Qed.

Lemma screen_reachable w : Screen.reachable w → reachable w.
Proof. intros [es Hrun]. exists es. by apply screen_run. Qed.

(** A request comes from the card of an image that is [done]. *)
Lemma allows_correct w imageId correction :
  Screen.allows w (CorrectImage imageId correction) = true →
  ∃ image, image ∈ processedImages (state w)
           ∧ id image = imageId
           ∧ status image = done
           ∧ Js.truthy_opt (processedUrl image) = true.
Proof.
  simpl. rewrite existsb_exists.
  intros (image & Hin%list_elem_of_In & Hsubmits).
  unfold Screen.submits, refineOffered in Hsubmits.
  apply andb_prop in Hsubmits as [[Hdone Hurl]%andb_prop Hcall].
  apply bool_decide_eq_true in Hdone, Hcall.
  unfold Screen.handleCorrectSubmit in Hcall.
  destruct (Screen.blank correction); [done|].
  injection Hcall as Hid. by exists image.
Qed.

Lemma busy_update_processing jobs t imageId f :
  (∀ p, status (f p) = processing) →
  busy jobs t → busy (updateImage imageId f jobs) t.
Proof.
  intros Hst Hbusy p' (p & Hp & ->)%updateImage_elem Heq.
  case_decide; [by right|]. by apply Hbusy.
Qed.

Lemma busy_update_other jobs t imageId f :
  (∀ p, id (f p) = id p) → taskId t ≠ imageId →
  busy jobs t → busy (updateImage imageId f jobs) t.
Proof.
  intros Hid Hne Hbusy p' (p & Hp & ->)%updateImage_elem Heq.
  case_decide as Hp'; [|by apply Hbusy].
  rewrite Hid in Heq. congruence.
Qed.

(** The other calls in flight are about other images. *)
Lemma other_tasks (ts : list Task) n t t' :
  NoDup (taskId <$> ts) → ts !! n = Some t → t' ∈ delete n ts →
  taskId t' ≠ taskId t.
Proof.
  intros Hnd Hn [m Hm]%list_elem_of_lookup Heq.
  assert (ts !! (if decide (m < n) then m else S m) = Some t') as Hm'.
  { rewrite <- Hm. case_decide.
    - by rewrite list_lookup_delete_lt.
    - rewrite list_lookup_delete_ge by lia. done. }
  assert ((if decide (m < n) then m else S m) = n) as Heq'.
  { eapply NoDup_lookup; [exact Hnd| |].
    - by rewrite list_lookup_fmap, Hm'.
    - by rewrite list_lookup_fmap, Hn, Heq. }
  case_decide; lia.
Qed.

Lemma settledOnce_settles w n t f :
  settledOnce w → inflight w !! n = Some t → (∀ p, id (f p) = id p) →
  NoDup (taskId <$> delete n (inflight w))
  ∧ Forall (busy (updateImage (taskId t) f (processedImages (state w))))
           (delete n (inflight w)).
Proof.
  intros [Hnd Hbusy] Hn Hid. split.
  - rewrite list_fmap_delete.
    eapply sublist_NoDup; [exact Hnd|apply sublist_delete].
  - apply Forall_forall. intros t' Ht'.
    apply busy_update_other; [done|by eapply other_tasks|].
    rewrite Forall_forall in Hbusy. apply Hbusy.
    eapply elem_of_sublist; [exact Ht'|apply sublist_delete].
Qed.

(** Every event that the screen allows keeps the calls in flight about
    different images that are [pending] or [processing]. *)
Lemma settledOnce_step w e w' :
  invariant w → settledOnce w → Screen.step w e = Some w' → settledOnce w'.
Proof.
  intros Hinv Honce [Hstep Hallows]%screen_step.
  pose proof Honce as [Hnd Hbusy].
  destruct (step_images w e w' Hstep) as
    [(fresh & -> & Hrej & (Hlen & Hfresh & Hnew) & -> & Hjobs)
    |[[Hjobs Htasks]
    |[(n & image & bg & mode & options & -> & Hn & Htasks & Hjobs)
    |[(n & r & image & bg & mode & options & -> & Hn & Htasks & Hjobs)
    |[(imageId & correction & q & -> & Hq & Hid & Hurl & Htasks & Hjobs)
    |(n & fetched & r & imageId & itc & correction & -> & Hn & Htasks & Hjobs)]]]]].
  - pose proof (newImages_ids (carImages (state w)) fresh Hlen) as Hids.
    assert (∀ t, t ∈ inflight w → taskId t ∈ issued w) as Hold.
    { intros t Ht. pose proof (inv_tasks w Hinv) as H5.
      rewrite Forall_forall in H5. by destruct (H5 t Ht). }
    assert (∀ p, p ∈ zip_with newImage (carImages (state w)) fresh →
                 id p ∉ issued w) as Hnew'.
    { intros p Hp. rewrite Forall_forall in Hnew. apply Hnew.
      rewrite <- Hids. by apply list_elem_of_fmap_2. }
    split; rewrite ?Hjobs; unfold handleProcessImages; rewrite Hrej; simpl.
    + rewrite fmap_app, <- list_fmap_compose.
      apply NoDup_app. split_and!; [done| |].
      * intros g (t & -> & Ht)%list_elem_of_fmap (p & Hg & Hp)%list_elem_of_fmap.
        apply (Hnew' p Hp). simpl in Hg. rewrite <- Hg. by apply Hold.
      * change (NoDup (id <$> zip_with newImage (carImages (state w)) fresh)).
        by rewrite Hids.
    + apply Forall_app. split.
      * apply Forall_forall. intros t Ht p Hp Hpid. exfalso.
        apply (Hnew' p Hp). rewrite Hpid. by apply Hold.
      * apply Forall_fmap, Forall_forall. intros image _ p Hp _.
        left. by apply newImages_pending in Hp as [-> _].
  - split; by rewrite ?Hjobs, ?Htasks.
  - split; rewrite Htasks, ?Hjobs.
    + rewrite list_fmap_insert. simpl.
      replace (id image) with (taskId (Starting image bg mode options)) by done.
      rewrite list_insert_id; [done|]. by rewrite list_lookup_fmap, Hn.
    + assert (∀ t, busy (processedImages (state w)) t →
                   busy (updateImage (id image) toProcessing
                           (processedImages (state w))) t) as Hupd
        by (intros t; by apply busy_update_processing).
      apply Forall_insert.
      * eapply Forall_impl; [exact Hbusy|]. exact Hupd.
      * apply Hupd. rewrite Forall_forall in Hbusy.
        apply (Hbusy (Starting image bg mode options)).
        apply list_elem_of_lookup. eauto.
  - destruct (settledOnce_settles w n _
                (settled (generationOutcome r image bg mode options))
                Honce Hn) as [H1 H2]; [apply settled_id|].
    split; by rewrite Htasks, ?Hjobs.
  - destruct (allows_correct w imageId correction Hallows)
      as (image & Himage & Himageid & Hdone & _).
    split; rewrite Htasks, ?Hjobs.
    + rewrite fmap_app. simpl. apply NoDup_app. split_and!; [done| |apply NoDup_singleton].
      intros g (t & Hg & Ht)%list_elem_of_fmap Hg'%list_elem_of_singleton.
      rewrite Forall_forall in Hbusy.
      destruct (Hbusy t Ht image Himage) as [?|?]; congruence.
    + assert (∀ t, busy (processedImages (state w)) t →
                   busy (updateImage imageId toProcessingAgain
                           (processedImages (state w))) t) as Hupd
        by (intros t; by apply busy_update_processing).
      apply Forall_app. split.
      * eapply Forall_impl; [exact Hbusy|]. exact Hupd.
      * apply Forall_singleton.
        intros p' (p & Hp & ->)%updateImage_elem Heq.
        case_decide; [by right|]. simpl in Heq. congruence.
  - destruct (settledOnce_settles w n _
                (settled (result (correctionAttempt fetched r correction)))
                Honce Hn) as [H1 H2]; [apply settled_id|].
    split; by rewrite Htasks, ?Hjobs.
Qed.

Lemma settledOnce_initial : settledOnce initialWorld.
Proof. split; simpl; constructor. Qed.

Lemma screen_settledOnce w : Screen.reachable w → settledOnce w.
Proof.
  intros [es Hrun].
  assert (invariant initialWorld) as Hinv by apply invariant_initial.
  pose proof settledOnce_initial as Honce.
  revert Hrun Hinv Honce. generalize initialWorld.
  induction es as [|e es IH]; intros w0 Hrun Hinv Honce; simpl in Hrun.
  - by injection Hrun as <-.
  - destruct (Screen.step w0 e) as [w1|] eqn:Hstep; [|done].
    apply (IH w1 Hrun).
    + apply screen_step in Hstep as [Hstep _]. by eapply invariant_step.
    + by eapply settledOnce_step.
Qed.

(** An image in [error] is not touched by any event that the screen allows
    and that keeps the batch. *)
Lemma error_step w e w' i p :
  invariant w → settledOnce w → Screen.step w e = Some w' →
  isProcessImages e = false →
  processedImages (state w) !! i = Some p → status p = error →
  processedImages (state w') !! i = Some p.
Proof.
  intros Hinv [Hnd Hbusy] [Hstep Hallows]%screen_step He Hi Hst.
  assert (p ∈ processedImages (state w)) as Hp
    by (apply list_elem_of_lookup; eauto).
  assert (∀ n t, inflight w !! n = Some t → id p ≠ taskId t) as Hfree.
  { intros n t Hn Hid. rewrite Forall_forall in Hbusy.
    destruct (Hbusy t) with (p := p) as [?|?];
      [apply list_elem_of_lookup; eauto|done..|congruence|congruence]. }
  destruct (step_images w e w' Hstep) as
    [(fresh & -> & _)
    |[[Hjobs _]
    |[(n & image & bg & mode & options & -> & Hn & _ & Hjobs)
    |[(n & r & image & bg & mode & options & -> & Hn & _ & Hjobs)
    |[(imageId & correction & q & -> & _ & _ & _ & _ & Hjobs)
    |(n & fetched & r & imageId & itc & correction & -> & Hn & _ & Hjobs)]]]]];
    try done; rewrite Hjobs; try done.
  - apply updateImage_lookup_ne; [done|]. apply (Hfree n _ Hn).
  - apply updateImage_lookup_ne; [done|]. apply (Hfree n _ Hn).
  - apply updateImage_lookup_ne; [done|]. intros Hid.
    destruct (allows_correct w imageId correction Hallows)
      as (image & Himage & Himageid & Hdone & _).
    assert (p = image) as ->
      by (eapply NoDup_fmap_eq; [exact (inv_ids w Hinv)|done..|congruence]).
    congruence.
  - apply updateImage_lookup_ne; [done|]. apply (Hfree n _ Hn).
Qed.

Lemma error_run w es w' i p :
  invariant w → settledOnce w → Screen.run w es = Some w' →
  Forall (λ e, isProcessImages e = false) es →
  processedImages (state w) !! i = Some p → status p = error →
  processedImages (state w') !! i = Some p.
Proof.
  revert w. induction es as [|e es IH]; intros w Hinv Honce Hrun Hes Hi Hst;
    simpl in Hrun.
  - by injection Hrun as <-.
  - destruct (Screen.step w e) as [w1|] eqn:Hstep; [|done].
    apply Forall_cons in Hes as [He Hes].
    apply (IH w1); try done.
    + apply screen_step in Hstep as [Hstep _]. by eapply invariant_step.
    + by eapply settledOnce_step.
    + by eapply error_step.
Qed.

End Screens.

(** C2.  On the screen, the refinement of an image in [error] cannot be
    requested: the form that calls [handleCorrectImage] belongs to what the
    card renders for an image that is [done] and has a result, so no such
    request is made for an image in [error], whatever the correction, and
    whenever a request is made, the image it is about is [done] and is the
    one that is taken up.  No call is in flight for an image in [error]
    either: it stays as it is, in [error], under every run of events that
    keeps the batch. *)
Theorem error_is_final (w : App.World) (i : nat) (p : ProcessedImage) :
  Screen.reachable w →
  App.processedImages (App.state w) !! i = Some p →
  status p = error →
  (∀ correction, Screen.step w (App.CorrectImage (id p) correction) = None)
  ∧ (∀ image correction,
       image ∈ App.processedImages (App.state w) →
       Screen.handleCorrectSubmit image correction = Some (id p, correction) →
       image = p ∧ refineOffered image = false)
  ∧ (∀ es w',
       Screen.run w es = Some w' →
       Forall (λ e, Inv.isProcessImages e = false) es →
       App.processedImages (App.state w') !! i = Some p)
  ∧ (∀ imageId correction w',
       Screen.step w (App.CorrectImage imageId correction) = Some w' →
       ∃ j q, App.processedImages (App.state w) !! j = Some q
              ∧ id q = imageId
              ∧ status q = done
              ∧ App.processedImages (App.state w') !! j
                = Some (App.toProcessingAgain q)).
Proof.
  intros Hw Hi Hst.
  pose proof (screen_settledOnce w Hw) as Honce.
  pose proof (reachable_invariant w (screen_reachable w Hw)) as Hinv.
  assert (p ∈ App.processedImages (App.state w)) as Hp
    by (apply list_elem_of_lookup; eauto).
  split_and!.
  - intros correction. unfold Screen.step.
    destruct (Screen.allows w _) eqn:Hallows; [|done]. exfalso.
    destruct (allows_correct w (id p) correction Hallows)
      as (image & Himage & Himageid & Hdone & _).
    assert (image = p) as ->
      by (eapply NoDup_fmap_eq; [exact (Inv.inv_ids w Hinv)|done..]).
    congruence.
  - intros image correction Himage Hcall.
    unfold Screen.handleCorrectSubmit in Hcall.
    destruct (Screen.blank correction); [done|]. injection Hcall as Hid.
    assert (image = p) as ->
      by (eapply NoDup_fmap_eq; [exact (Inv.inv_ids w Hinv)|done..]).
    split; [done|]. unfold refineOffered. by rewrite Hst.
  - intros es w' Hrun Hes. by eapply error_run.
  - intros imageId correction w' [Hstep Hallows]%screen_step.
    destruct (allows_correct w imageId correction Hallows)
      as (image & [j Hj]%list_elem_of_lookup & Himageid & Hdone & Hurl).
    exists j, image. split_and!; [done..|].
    simpl in Hstep. injection Hstep as <-. rewrite <- Himageid.
    rewrite (handleCorrectImage_accepts w j image correction Hinv Hj Hurl).
    simpl. by apply updateImage_lookup_eq.
Qed.

Lemma error_is_final_witness :
  let w := Sample.failedRefinement in
  let p := Sample.job Sample.failedRefinement 0 in
  ((∀ correction, Screen.step w (App.CorrectImage (id p) correction) = None)
   ∧ (∀ image correction,
        image ∈ App.processedImages (App.state w) →
        Screen.handleCorrectSubmit image correction = Some (id p, correction) →
        image = p ∧ refineOffered image = false)
   ∧ (∀ es w',
        Screen.run w es = Some w' →
        Forall (λ e, Inv.isProcessImages e = false) es →
        App.processedImages (App.state w') !! 0%nat = Some p)
   ∧ (∀ imageId correction w',
        Screen.step w (App.CorrectImage imageId correction) = Some w' →
        ∃ j q, App.processedImages (App.state w) !! j = Some q
               ∧ id q = imageId
               ∧ status q = done
               ∧ App.processedImages (App.state w') !! j
                 = Some (App.toProcessingAgain q)))
  ∧ status p = error
  ∧ processedUrl p = Some "data:image/png;base64,iVBOR"
  ∧ Screen.step w (App.CorrectImage "job-1" "try again") = None
  ∧ Screen.run Sample.failedGeneration
      [App.CorrectImage "job-1" "make the shadow softer"] = None.
Proof.
  split; [|by vm_compute].
  apply (error_is_final Sample.failedRefinement 0
           (Sample.job Sample.failedRefinement 0)).
  - exists Sample.failedRefinementRun. vm_compute. reflexivity.
  - vm_compute. reflexivity.
  - reflexivity.
Defined.

(** ** C6 and C10: what a refinement changes *)

(** The request to refine an image that is [done] is taken up, and when the
    call settles the image gets the update of the [try] or of the [catch]. *)
Lemma refined_image
    (w : App.World) (j : nat) (q : ProcessedImage) (correction : string)
    (fetched : outcome App.FetchedBlob) (r : reply) :
  App.reachable w →
  App.processedImages (App.state w) !! j = Some q →
  status q = done →
  Js.truthy_opt (processedUrl q) = true
  ∧ App.handleCorrectImage (id q) correction w
    = {| App.state :=
           App.setProcessedImages
             (App.updateImage (id q) App.toProcessingAgain) (App.state w);
         App.inflight := App.inflight w ++ [App.Correcting (id q) q correction];
         App.issued := App.issued w |}
  ∧ App.processedImages
      (App.finishCorrection fetched r (id q) correction
         (App.state (App.handleCorrectImage (id q) correction w))) !! j
    = Some (App.settled (result (App.correctionAttempt fetched r correction))
              (App.toProcessingAgain q)).
Proof.
  intros Hw Hj Hst. apply reachable_invariant in Hw.
  assert (Js.truthy_opt (processedUrl q) = true) as Hurl.
  { pose proof (Inv.inv_jobs w Hw) as Hjobs. rewrite Forall_forall in Hjobs.
    apply Hjobs; [|done]. apply list_elem_of_lookup. eauto. }
  rewrite (handleCorrectImage_accepts w j q correction Hw Hj Hurl).
  split_and!; [done..|]. simpl. unfold App.settle.
  apply (updateImage_lookup_eq _ _ _ j (App.toProcessingAgain q)); [|done].
  by apply updateImage_lookup_eq.
Qed.

(** C6.  A refinement of the image at position [j] of a reachable world, an
    image that is [done], is taken up; when it settles, with a result or
    with a failure, every image at another position is as it was before the
    request, the list has the same length, and the image at [j] differs from
    what it was in its result, status and error message only. *)
Theorem refinement_changes_only_its_image
    (w : App.World) (j : nat) (q : ProcessedImage) (correction : string)
    (fetched : outcome App.FetchedBlob) (r : reply) :
  App.reachable w →
  App.processedImages (App.state w) !! j = Some q →
  status q = done →
  let w1 := App.handleCorrectImage (id q) correction w in
  let o := result (App.correctionAttempt fetched r correction) in
  let after :=
    App.processedImages
      (App.finishCorrection fetched r (id q) correction (App.state w1)) in
  App.inflight w1 = App.inflight w ++ [App.Correcting (id q) q correction]
  ∧ (∀ k, k ≠ j →
       App.processedImages (App.state w1) !! k
       = App.processedImages (App.state w) !! k)
  ∧ (∀ k, k ≠ j → after !! k = App.processedImages (App.state w) !! k)
  ∧ length after = length (App.processedImages (App.state w))
  ∧ after !! j
    = Some {| id := id q; originalFile := originalFile q;
              originalUrl := originalUrl q;
              processedUrl :=
                match o with
                | Returns resultUrl => Some resultUrl
                | Throws _ => processedUrl q
                end;
              status := match o with Returns _ => done | Throws _ => error end;
              error_ :=
                match o with
                | Returns _ => None
                | Throws e => Some (App.errorMessageOf e)
                end |}.
Proof.
  intros Hw Hj Hst w1 o after.
  destruct (refined_image w j q correction fetched r Hw Hj Hst)
    as (Hurl & Hw1 & Hafter).
  pose proof (Inv.inv_ids w (reachable_invariant w Hw)) as Hnd.
  subst after o w1. rewrite Hafter. rewrite Hw1. simpl. unfold App.settle.
  assert (NoDup (id <$> App.updateImage (id q) App.toProcessingAgain
                          (App.processedImages (App.state w)))) as Hnd1
    by by rewrite updateImage_ids.
  assert (App.updateImage (id q) App.toProcessingAgain
            (App.processedImages (App.state w)) !! j
          = Some (App.toProcessingAgain q)) as Hj1
    by by apply updateImage_lookup_eq.
  split_and!.
  - done.
  - intros k Hk. by apply (updateImage_others _ j q).
  - intros k Hk.
    rewrite (updateImage_others _ j (App.toProcessingAgain q)) by done.
    by apply (updateImage_others _ j q).
  - by rewrite !updateImage_length.
  - by destruct (result _).
Qed.

Lemma refinement_changes_only_its_image_witness :
  let w1 :=
    App.handleCorrectImage (id Sample.secondJob) "make the shadow softer"
      Sample.threeDone in
  let o :=
    result (App.correctionAttempt Sample.fetchedResult (Resolved Sample.refusal)
              "make the shadow softer") in
  let after :=
    App.processedImages
      (App.finishCorrection Sample.fetchedResult (Resolved Sample.refusal)
         (id Sample.secondJob) "make the shadow softer" (App.state w1)) in
  App.inflight w1
    = App.inflight Sample.threeDone
      ++ [App.Correcting (id Sample.secondJob) Sample.secondJob
            "make the shadow softer"]
  ∧ (∀ k, k ≠ 1%nat →
       App.processedImages (App.state w1) !! k
       = App.processedImages (App.state Sample.threeDone) !! k)
  ∧ (∀ k, k ≠ 1%nat →
       after !! k = App.processedImages (App.state Sample.threeDone) !! k)
  ∧ length after = length (App.processedImages (App.state Sample.threeDone))
  ∧ after !! 1%nat
    = Some {| id := id Sample.secondJob;
              originalFile := originalFile Sample.secondJob;
              originalUrl := originalUrl Sample.secondJob;
              processedUrl :=
                match o with
                | Returns resultUrl => Some resultUrl
                | Throws _ => processedUrl Sample.secondJob
                end;
              status := match o with Returns _ => done | Throws _ => error end;
              error_ :=
                match o with
                | Returns _ => None
                | Throws e => Some (App.errorMessageOf e)
                end |}.
Proof.
  apply (refinement_changes_only_its_image Sample.threeDone 1
           Sample.secondJob "make the shadow softer"
           Sample.fetchedResult (Resolved Sample.refusal)).
  - exists Sample.threeDoneRun. vm_compute. reflexivity.
  - vm_compute. reflexivity.
  - reflexivity.
Defined.

(** C10.  When the refinement of an image that is [done] fails, the image
    keeps the result it had, its status becomes [error] and its error
    message is the message of the failure: the message of the [Error] that
    was thrown, or the fixed text when what was thrown is no [Error]. *)
Theorem failed_refinement_keeps_result
    (w : App.World) (j : nat) (q : ProcessedImage) (correction : string)
    (fetched : outcome App.FetchedBlob) (r : reply) (e : exn) :
  App.reachable w →
  App.processedImages (App.state w) !! j = Some q →
  status q = done →
  result (App.correctionAttempt fetched r correction) = Throws e →
  let w1 := App.handleCorrectImage (id q) correction w in
  ∃ q',
    App.processedImages
      (App.finishCorrection fetched r (id q) correction (App.state w1)) !! j
    = Some q'
    ∧ processedUrl q' = processedUrl q
    ∧ processedUrl q ≠ None
    ∧ status q' = error
    ∧ error_ q'
      = Some match e with
             | Error message => message
             | NotAnError => "An unknown error occurred."
             end.
Proof.
  intros Hw Hj Hst Hfail w1.
  destruct (refined_image w j q correction fetched r Hw Hj Hst)
    as (Hurl & _ & Hafter).
  fold w1 in Hafter. rewrite Hfail in Hafter.
  eexists. split; [exact Hafter|]. simpl. split_and!; try done.
  by destruct (processedUrl q).
Qed.

Lemma failed_refinement_keeps_result_witness :
  let w1 :=
    App.handleCorrectImage (id Sample.doneJob) "make the shadow softer"
      Sample.oneDone in
  ∃ q',
    App.processedImages
      (App.finishCorrection Sample.fetchedResult (Resolved Sample.refusal)
         (id Sample.doneJob) "make the shadow softer" (App.state w1)) !! 0%nat
    = Some q'
    ∧ processedUrl q' = processedUrl Sample.doneJob
    ∧ processedUrl Sample.doneJob ≠ None
    ∧ status q' = error
    ∧ error_ q'
      = Some "API returned a text response instead of an image: I cannot edit this image.".
Proof.
  apply (failed_refinement_keeps_result Sample.oneDone 0 Sample.doneJob
           "make the shadow softer" Sample.fetchedResult
           (Resolved Sample.refusal)
           (BackendRefused "I cannot edit this image.")).
  - exists Sample.oneDoneRun. vm_compute. reflexivity.
  - vm_compute. reflexivity.
  - reflexivity.
  - vm_compute. reflexivity.
Defined.

(** * Further properties of the code *)

(** ** Strings *)

Section Strings.

Implicit Types (c : ascii) (s p base ext : string).

Lemma append_cons (a : ascii) s1 s2 : String a s1 +:+ s2 = String a (s1 +:+ s2).
Proof. done. Qed.

Lemma append_assoc s1 s2 s3 : (s1 +:+ s2) +:+ s3 = s1 +:+ (s2 +:+ s3).
Proof.
  induction s1 as [|a s1 IH]; [done|]. rewrite !append_cons. by rewrite IH.
Qed.

Lemma length_append s1 s2 :
  String.length (s1 +:+ s2) = (String.length s1 + String.length s2)%nat.
Proof.
  induction s1 as [|a s1 IH]; [done|]. rewrite append_cons. simpl.
  by rewrite IH.
Qed.

Lemma occurs_append c s1 s2 :
  occurs c (s1 +:+ s2) = occurs c s1 || occurs c s2.
Proof.
  induction s1 as [|a s1 IH]; [done|]. rewrite append_cons. simpl.
  destruct (Ascii.eqb a c); [done|exact IH].
Qed.

Lemma prefix_append p s1 s2 :
  String.prefix p s1 = true → String.prefix p (s1 +:+ s2) = true.
Proof.
  revert p. induction s1 as [|a s1 IH]; intros [|b p]; try done.
  - by destruct s2.
  - rewrite append_cons. simpl. destruct (ascii_dec b a); [apply IH|done].
Qed.

Lemma prefix_cons_append p s1 s2 :
  String.prefix s1 s2 = true → String.prefix (p +:+ s1) (p +:+ s2) = true.
Proof.
  intros H. induction p as [|a p IH]; [done|]. rewrite !append_cons. simpl.
  by destruct (ascii_dec a a).
Qed.

Lemma prefix_self_append s1 s2 : String.prefix s1 (s1 +:+ s2) = true.
Proof.
  induction s1 as [|a s1 IH]; [by destruct s2|]. rewrite append_cons. simpl.
  by destruct (ascii_dec a a).
Qed.

Lemma includes_prefix p s : String.prefix p s = true → Js.includes p s = true.
Proof. intros H. destruct s; cbn [Js.includes]; by rewrite H. Qed.

Lemma includes_cons (a : ascii) p s :
  Js.includes p s = true → Js.includes p (String a s) = true.
Proof. intros H. cbn [Js.includes]. rewrite H. apply orb_true_r. Qed.

(** A text includes whatever stands in its middle. *)
Lemma includes_middle s before p after :
  s = before +:+ p +:+ after → Js.includes p s = true.
Proof.
  intros ->. induction before as [|a before IH].
  - change (EmptyString +:+ p +:+ after) with (p +:+ after).
    apply includes_prefix, prefix_self_append.
  - rewrite append_cons. by apply includes_cons.
Qed.

(** A string in which [c] occurs can be cut at its last [c]. *)
Lemma cut_at_last c s :
  occurs c s = true →
  ∃ base ext, s = base +:+ String c ext ∧ occurs c ext = false.
Proof.
  induction s as [|a s IH]; simpl; [done|].
  destruct (occurs c s) eqn:Hs.
  - intros _. destruct (IH eq_refl) as (base & ext & -> & Hext).
    by exists (String a base), ext.
  - rewrite orb_false_r. intros ->%Ascii.eqb_eq. by exists EmptyString, s.
Qed.

End Strings.

(** ** fileToBase64 *)

Lemma mediaType_plain type :
  occurs ","%char type = false → occurs ","%char (mediaType type) = false.
Proof. intros H. unfold mediaType. by destruct (isMediaType type). Qed.

Lemma encoded_plain file :
  occurs ","%char (type file) = false →
  occurs ","%char (base64 file) = false →
  encoded file = {| mimeType := type file; data := base64 file |}.
Proof.
  intros Htype Hdata. unfold encoded, readAsDataURL. f_equal.
  change (";base64," +:+ base64 file)
    with (";base64" +:+ String ","%char (base64 file)).
  rewrite <- !append_assoc, split_append.
  rewrite (split_no_separator _ (base64 file) Hdata).
  rewrite split_no_separator; [done|].
  rewrite !occurs_append, (mediaType_plain _ Htype). done.
Qed.

(** [fileToBase64] gives back the type and the content of a file that the
    reader has read, provided neither holds a comma (as media types and
    base64 text do not): so for a file of a type like [image/png], and so
    for a file without a type, for which the reader writes
    [application/octet-stream] in the data URL.  When the reader fails, the
    promise is rejected with a value that is no [Error]. *)
Theorem fileToBase64_round_trip (file : File) :
  occurs ","%char (type file) = false →
  occurs ","%char (base64 file) = false →
  fileToBase64 file
  = (if readable file
     then (Returns {| mimeType := type file; data := base64 file |}, [])
     else (Throws NotAnError, []))
  ∧ (type file = EmptyString →
     readAsDataURL file = "data:application/octet-stream;base64," +:+ base64 file).
Proof.
  intros Htype Hdata. split.
  - destruct (readable file) eqn:Hread.
    + by rewrite (fileToBase64_read _ Hread), (encoded_plain file Htype Hdata).
    + by rewrite (fileToBase64_lost _ Hread).
  - intros Hempty. unfold readAsDataURL. by rewrite Hempty.
Qed.

Lemma fileToBase64_round_trip_witness :
  (fileToBase64 Sample.untyped
   = (Returns {| mimeType := EmptyString; data := "QUJD" |}, [])
   ∧ (type Sample.untyped = EmptyString →
      readAsDataURL Sample.untyped = "data:application/octet-stream;base64,QUJD"))
  ∧ fileToBase64 Sample.background
    = (Returns {| mimeType := "image/png"; data := "QkVBQ0g=" |}, [])
  ∧ fileToBase64 Sample.lostCar = (Throws NotAnError, []).
Proof.
  split; [|by vm_compute].
  apply (fileToBase64_round_trip Sample.untyped); reflexivity.
Defined.

(** ** The requests of the client *)

(** Whatever the model answers, [processCarImage] sends at most one request:
    none without a background image in a mode that needs one, none when the
    reader fails on a file the mode uses, and otherwise the prompt of the
    mode, then the type and content of the car image, then those of the
    background image.  In mode [tint-turntable-only] the background image is
    neither read nor sent, even when there is one.  (Types and contents are
    taken without a comma, as for [fileToBase64].) *)
Theorem processCarImage_requests
    (api : Request → reply) (carImageFile : File)
    (backgroundImageFile : option File) (mode : ProcessingMode)
    (options : ProcessingOptions) :
  occurs ","%char (type carImageFile) = false →
  occurs ","%char (base64 carImageFile) = false →
  (∀ file, backgroundImageFile = Some file →
     occurs ","%char (type file) = false ∧ occurs ","%char (base64 file) = false) →
  let blob (file : File) := {| mimeType := type file; data := base64 file |} in
  networkCalls (processCarImage api carImageFile backgroundImageFile mode options)
  = if decide (mode = tint_turntable_only)
    then if readable carImageFile
         then [request [textPart (Prompt.buildPrompt mode options);
                        inlinePart (blob carImageFile)]]
         else []
    else match backgroundImageFile with
         | Some backgroundImageFile =>
             if readable carImageFile && readable backgroundImageFile
             then [request [textPart (Prompt.buildPrompt mode options);
                            inlinePart (blob carImageFile);
                            inlinePart (blob backgroundImageFile)]]
             else []
         | None => []
         end.
Proof.
  intros Htype Hdata Hbg blob. unfold blob.
  rewrite <- (encoded_plain carImageFile Htype Hdata).
  unfold processCarImage.
  destruct (readable carImageFile) eqn:Hcar; cycle 1.
  { rewrite (fileToBase64_lost _ Hcar), bind_throw_l.
    case_decide; [done|]. by destruct backgroundImageFile. }
  rewrite (fileToBase64_read _ Hcar), bind_ret_l.
  destruct backgroundImageFile as [bg|].
  - destruct (Hbg bg eq_refl) as [Htype' Hdata'].
    rewrite <- (encoded_plain bg Htype' Hdata').
    destruct (readable bg) eqn:Hread.
    + destruct mode; cbv beta iota;
        rewrite ?(fileToBase64_read _ Hread), ?bind_ret_l;
        case_decide; try done; apply one_call.
    + destruct mode; cbv beta iota;
        rewrite ?(fileToBase64_lost _ Hread), ?bind_ret_l, ?bind_throw_l;
        case_decide; try done; apply one_call.
  - destruct mode; cbv beta iota; rewrite ?bind_ret_l, ?bind_throw_l;
      case_decide; try done; apply one_call.
Qed.

Lemma processCarImage_requests_witness :
  let api := λ _ : Request, Resolved Sample.imageAnswer in
  (networkCalls (processCarImage api (Sample.car "car.jpg")
                   (Some Sample.background) full Sample.options)
   = [request [textPart (Prompt.buildPrompt full Sample.options);
               inlinePart {| mimeType := "image/jpeg"; data := "QUJD" |};
               inlinePart {| mimeType := "image/png"; data := "QkVBQ0g=" |}]])
  ∧ networkCalls (processCarImage api Sample.lostCar (Some Sample.background)
                    full Sample.options) = []
  ∧ networkCalls (processCarImage api (Sample.car "car.jpg")
                    (Some Sample.background) tint_turntable_only Sample.options)
    = [request [textPart (Prompt.buildPrompt tint_turntable_only Sample.options);
                inlinePart {| mimeType := "image/jpeg"; data := "QUJD" |}]].
Proof.
  split; [|by vm_compute].
  apply (processCarImage_requests (λ _, Resolved Sample.imageAnswer)
           (Sample.car "car.jpg") (Some Sample.background) full Sample.options).
  - reflexivity.
  - reflexivity.
  - intros file [= <-]. split; reflexivity.
Defined.

(** [correctImage] sends exactly one request once the image to refine is
    read, its prompt, which quotes the correction, and then that image; it
    sends none when the reader fails. *)
Theorem correctImage_requests
    (api : Request → reply) (processedImageFile : File) (correction : string) :
  networkCalls (correctImage api processedImageFile correction)
  = (if readable processedImageFile
     then [request [textPart (correctionPrompt correction);
                    inlinePart (encoded processedImageFile)]]
     else [])
  ∧ Js.includes (Js.dquote +:+ correction +:+ Js.dquote)
      (correctionPrompt correction) = true.
Proof.
  split.
  - unfold correctImage. destruct (readable processedImageFile) eqn:Hread.
    + rewrite (fileToBase64_read _ Hread), bind_ret_l. apply one_call.
    + by rewrite (fileToBase64_lost _ Hread).
  - apply includes_middle with
      (before := "Based on the user's feedback, please refine the provided image. The user's instruction is: ")
      (after := ". " +:+ Js.nl +:+ Js.join Js.nl
         [ "  ";
           "  Your task is to apply this change subtly and realistically, maintaining the overall quality and composition of the image. ";
           "  ";
           "  The final output must be a single, high-resolution composite image, aiming for 3000 pixels on the longest side. Do not include any text, annotations, or borders. Only return the modified image." ]).
    unfold correctionPrompt, Prompt.template. cbn [Js.join].
    by rewrite !append_assoc.
Qed.

(** ** What the client returns and throws *)

Section Results.

Variable api : Request → reply.

Lemma firstImage_imageDataUrl ps url :
  firstImage ps = Some url → imageDataUrl url.
Proof.
  induction ps as [|part ps IH]; simpl; [done|].
  unfold isImagePart. destruct (inlineData part) as [b|]; [|done].
  destruct (Js.startsWith "image/" (mimeType b)) eqn:Himg; [|done].
  intros [= <-]. unfold imageDataUrl, dataUrl, Js.startsWith.
  apply (prefix_cons_append "data:" "image/"). by apply prefix_append.
Qed.

Lemma readResponse_imageDataUrl response url :
  result (readResponse response) = Returns url → imageDataUrl url.
Proof.
  destruct (readResponse_cases response) as [(u & Hu & ->)|(e & _ & ->)]; [|done].
  intros [= <-]. by eapply firstImage_imageDataUrl.
Qed.

Lemma answered_imageDataUrl ps url :
  result (await response := generateContent api (request ps) in
          readResponse response) = Returns url →
  imageDataUrl url.
Proof.
  unfold generateContent, bind.
  destruct (api (request ps)) as [r|e]; [|done].
  destruct (readResponse r) as [o sent] eqn:Hread. simpl. intros ->.
  apply (readResponse_imageDataUrl r). by rewrite Hread.
Qed.

Lemma processCarImage_imageDataUrl carImageFile backgroundImageFile mode options url :
  result (processCarImage api carImageFile backgroundImageFile mode options)
    = Returns url →
  imageDataUrl url.
Proof.
  destruct (processCarImage_cases api carImageFile backgroundImageFile
              mode options) as [[ps ->]|[e ->]]; [|done].
  apply answered_imageDataUrl.
Qed.

Lemma correctImage_imageDataUrl processedImageFile correction url :
  result (correctImage api processedImageFile correction) = Returns url →
  imageDataUrl url.
Proof.
  destruct (correctImage_cases api processedImageFile correction)
    as [[ps ->]|[e ->]]; [|done].
  apply answered_imageDataUrl.
Qed.

Lemma rejected_result ps e :
  api (request ps) = Rejected e →
  (await response := generateContent api (request ps) in
   readResponse response) = (Throws e, [request ps]).
Proof. intros H. unfold generateContent, bind. by rewrite H. Qed.

End Results.

(** Whatever either operation returns is the data URL of an image: it starts
    with [data:image/]. *)
Theorem results_are_image_data_urls
    (api : Request → reply) (carImageFile : File)
    (backgroundImageFile : option File) (mode : ProcessingMode)
    (options : ProcessingOptions) (processedImageFile : File)
    (correction url : string) :
  result (processCarImage api carImageFile backgroundImageFile mode options)
    = Returns url
  ∨ result (correctImage api processedImageFile correction) = Returns url →
  Js.startsWith "data:image/" url = true.
Proof.
  intros [H|H].
  - by eapply processCarImage_imageDataUrl.
  - by eapply correctImage_imageDataUrl.
Qed.

Lemma results_are_image_data_urls_witness :
  Js.startsWith "data:image/" "data:image/png;base64,iVBOR" = true.
Proof.
  apply (results_are_image_data_urls (λ _, Resolved Sample.imageAnswer)
           (Sample.car "car.jpg") None tint_turntable_only Sample.options
           (Sample.car "processed_image.png") "make the shadow softer").
  left. vm_compute. reflexivity.
Defined.

(** When the call to the model is rejected, both operations throw what it
    was rejected with, after that one request; the image's error message is
    then the message of that error, or the fixed text when what was thrown
    is not an [Error].  (Had a file not been read, nothing would have been
    asked and the failure of the reader is what is thrown.) *)
Theorem transport_failure_is_rethrown
    (api : Request → reply) (e : exn) (carImageFile : File)
    (backgroundImageFile : option File) (mode : ProcessingMode)
    (options : ProcessingOptions) (processedImageFile : File)
    (correction : string) (p : ProcessedImage) :
  (∀ req, api req = Rejected e) →
  mode = tint_turntable_only ∨ is_Some backgroundImageFile →
  result (processCarImage api carImageFile backgroundImageFile mode options)
    = (if filesRead carImageFile backgroundImageFile mode
       then Throws e else Throws NotAnError)
  ∧ length (networkCalls
              (processCarImage api carImageFile backgroundImageFile mode options))
    = (if filesRead carImageFile backgroundImageFile mode then 1%nat else 0%nat)
  ∧ correctImage api processedImageFile correction
    = (if readable processedImageFile
       then (Throws e, [request [textPart (correctionPrompt correction);
                                 inlinePart (encoded processedImageFile)]])
       else (Throws NotAnError, []))
  ∧ status (App.settled (Throws e) p) = error
  ∧ error_ (App.settled (Throws e) p)
    = Some match e with
           | Error message => message
           | NotAnError => "An unknown error occurred."
           end.
Proof.
  intros Hapi Hbg. split_and!.
  - destruct (filesRead carImageFile backgroundImageFile mode) eqn:Hfiles.
    + destruct (processCarImage_sends api carImageFile backgroundImageFile
                  mode options Hbg Hfiles) as [ps ->].
      by rewrite (rejected_result api ps e (Hapi _)).
    + by rewrite processCarImage_lost.
  - destruct (filesRead carImageFile backgroundImageFile mode) eqn:Hfiles.
    + destruct (processCarImage_sends api carImageFile backgroundImageFile
                  mode options Hbg Hfiles) as [ps ->].
      by rewrite (rejected_result api ps e (Hapi _)).
    + by rewrite processCarImage_lost.
  - unfold correctImage. destruct (readable processedImageFile) eqn:Hread.
    + rewrite (fileToBase64_read _ Hread), bind_ret_l.
      by apply rejected_result.
    + by rewrite (fileToBase64_lost _ Hread).
  - done.
  - by destruct e.
Qed.

Lemma transport_failure_is_rethrown_witness :
  let api := λ _ : Request, Rejected (Error "Failed to fetch") in
  result (processCarImage api (Sample.car "car.jpg") (Some Sample.background)
            full Sample.options)
    = Throws (Error "Failed to fetch")
  ∧ length (networkCalls
              (processCarImage api (Sample.car "car.jpg")
                 (Some Sample.background) full Sample.options))
    = 1%nat
  ∧ correctImage api (Sample.car "processed_image.png") "make the shadow softer"
    = (Throws (Error "Failed to fetch"),
       [request [textPart (correctionPrompt "make the shadow softer");
                 inlinePart (encoded (Sample.car "processed_image.png"))]])
  ∧ status (App.settled (Throws (Error "Failed to fetch")) Sample.doneJob) = error
  ∧ error_ (App.settled (Throws (Error "Failed to fetch")) Sample.doneJob)
    = Some "Failed to fetch".
Proof.
  apply (transport_failure_is_rethrown
           (λ _, Rejected (Error "Failed to fetch")) (Error "Failed to fetch")
           (Sample.car "car.jpg") (Some Sample.background) full Sample.options
           (Sample.car "processed_image.png") "make the shadow softer"
           Sample.doneJob).
  - intros req. reflexivity.
  - right. eexists. reflexivity.
Defined.

(** A refinement sends back the image it is about: when fetching the result
    gives the type and the bytes of a blob [b] (neither holding a comma), the
    one request of the attempt carries the correction prompt and [b].  When
    the fetch fails, nothing is sent and the attempt throws what the fetch
    threw. *)
Theorem refinement_sends_the_result
    (b : Blob) (r : reply) (correction : string) (e : exn) :
  occurs ","%char (mimeType b) = false →
  occurs ","%char (data b) = false →
  networkCalls (App.correctionAttempt (Returns (fetchedFrom b)) r correction)
    = [request [textPart (correctionPrompt correction); inlinePart b]]
  ∧ App.correctionAttempt (Throws e) r correction = (Throws e, []).
Proof.
  intros Htype Hdata. split; [|done].
  unfold App.correctionAttempt.
  change (Returns (fetchedFrom b), []) with (ret (A:=App.FetchedBlob) (fetchedFrom b)).
  rewrite bind_ret_l. cbv beta zeta. unfold fetchedFrom.
  cbn [App.blob_type App.blob_base64].
  unfold correctImage. rewrite fileToBase64_read by done. rewrite bind_ret_l.
  rewrite one_call. rewrite encoded_plain by done. simpl. by destruct b.
Qed.

Lemma refinement_sends_the_result_witness :
  let b := {| mimeType := "image/png"; data := "iVBOR" |} in
  networkCalls
    (App.correctionAttempt (Returns (fetchedFrom b)) (Resolved Sample.refusal)
       "make the shadow softer")
    = [request [textPart (correctionPrompt "make the shadow softer"); inlinePart b]]
  ∧ App.correctionAttempt (Throws NotAnError) (Resolved Sample.refusal)
      "make the shadow softer"
    = (Throws NotAnError, []).
Proof.
  apply (refinement_sends_the_result
           {| mimeType := "image/png"; data := "iVBOR" |}
           (Resolved Sample.refusal) "make the shadow softer" NotAnError);
    reflexivity.
Defined.

(** ** More on the prompts *)

(** In every mode and for every value of the options, the steps of the prompt
    are numbered 1, 2, ... up to the number of steps of the mode's template
    plus the number of optional clauses the options select: no number is
    skipped or repeated when a clause is left out. *)
Theorem steps_follow_the_selected_clauses
    (mode : ProcessingMode) (options : ProcessingOptions) :
  numbering (Prompt.buildPrompt mode options)
  = seq 1 (baseSteps mode + selectedClauses mode options).
Proof.
  destruct options as [fe mr tt]. destruct mode.
  - by vm_compute.
  - destruct fe as [[]|], mr as [[]|]; by vm_compute.
  - destruct tt as [[]|]; by vm_compute.
  - destruct tt as [[]|]; by vm_compute.
Qed.

(** The prompt of [tint-turntable-only] always forbids any other change and
    never speaks of a second image or of a background; the tint it asks for
    is the option's value as it is, so that with the tint [none], or with no
    tint at all, it asks for a [none] or [undefined] colour overlay. *)
Theorem tint_only_prompt (options : ProcessingOptions) :
  let prompt := Prompt.buildPrompt tint_turntable_only options in
  Js.includes "You must NOT change anything else in the image." prompt = true
  ∧ Js.includes "second image" prompt = false
  ∧ Js.includes "background" prompt = false
  ∧ Js.includes
      ("Apply a transparent "
       +:+ match turntableTint options with
           | Some tt_none => "none"
           | Some tt_red => "red"
           | Some tt_yellow => "yellow"
           | None => "undefined"
           end
       +:+ " color overlay with exactly 15% opacity ONLY to the top surface of the turntable.")
      prompt = true.
Proof.
  destruct options as [fe mr [[]|]]; by vm_compute.
Qed.

(** ** More on the names of exported files *)

Lemma or_else_truthy o d : Js.truthy d = true → Js.truthy (Js.or_else o d) = true.
Proof.
  intros Hd. destruct o as [s|]; simpl; [|done].
  by destruct (Js.truthy s) eqn:Hs.
Qed.

Lemma length_or_png ext :
  (String.length ext ≤ String.length (if Js.truthy ext then ext else "png"))%nat.
Proof. destruct ext; simpl; lia. Qed.

(** The export name of any file name: cut at the last ['.'] when there is
    one, with [png] for an empty extension; the whole name taken for the
    extension when there is none.  In every case the export name contains
    [-processed.], is at least ten characters longer than the original and
    so never equal to it. *)
Theorem export_name (s : string) :
  (∀ base ext, s = base +:+ "." +:+ ext → occurs "."%char ext = false →
     App.getOutputFilename s
     = base +:+ "-processed." +:+ (if Js.truthy ext then ext else "png"))
  ∧ (occurs "."%char s = false →
     App.getOutputFilename s
     = "-processed." +:+ (if Js.truthy s then s else "png"))
  ∧ Js.includes "-processed." (App.getOutputFilename s) = true
  ∧ (String.length s + 10 ≤ String.length (App.getOutputFilename s))%nat
  ∧ App.getOutputFilename s ≠ s.
Proof.
  assert (Js.includes "-processed." (App.getOutputFilename s) = true
          ∧ (String.length s + 10 ≤ String.length (App.getOutputFilename s))%nat)
    as [Hinc Hlen].
  { destruct (occurs "."%char s) eqn:Hdot.
    - destruct (cut_at_last _ _ Hdot) as (base & ext & -> & Hext).
      change (String "."%char ext) with ("." +:+ ext).
      rewrite (getOutputFilename_with_dot base ext Hext). split.
      + by eapply includes_middle.
      + pose proof (length_or_png ext).
        rewrite !length_append. simpl. lia.
    - rewrite (getOutputFilename_without_dot s Hdot). split.
      + by apply (includes_middle _ EmptyString "-processed."
                    (if Js.truthy s then s else "png")).
      + pose proof (length_or_png s).
        rewrite !length_append. simpl. lia.
  }
  split_and!; try done.
  - intros base ext -> Hext. by apply getOutputFilename_with_dot.
  - apply getOutputFilename_without_dot.
  - intros Heq. rewrite Heq in Hlen. lia.
Qed.

(** Two different file names can get the same export name: a name that ends
    with ['.'] and the same name with [png] after the ['.']. *)
Theorem export_names_collide (base : string) :
  App.getOutputFilename (base +:+ ".") = App.getOutputFilename (base +:+ ".png")
  ∧ base +:+ "." ≠ base +:+ ".png".
Proof.
  split.
  - change "." with ("." +:+ EmptyString) at 1.
    change ".png" with ("." +:+ "png").
    by rewrite !getOutputFilename_with_dot.
  - intros H. apply (f_equal String.length) in H.
    rewrite !length_append in H. simpl in H. lia.
Qed.

(** ** More invariants of the application *)

Section Reachable.

Import App Inv.

Implicit Types (w : World) (p q : ProcessedImage) (t : Task).

Lemma evolves_refl p : evolves p p.
Proof. by repeat split. Qed.

Lemma evolves_trans p1 p2 p3 : evolves p1 p2 → evolves p2 p3 → evolves p1 p3.
Proof.
  intros (H1 & H2 & H3 & H4 & H5) (G1 & G2 & G3 & G4 & G5).
  repeat split; try congruence; auto.
Qed.

Lemma evolves_updateImage imageId f (jobs : list ProcessedImage) :
  (∀ p, evolves p (f p)) → Forall2 evolves jobs (updateImage imageId f jobs).
Proof.
  intros Hf. induction jobs as [|p jobs IH]; [constructor|].
  unfold updateImage. rewrite fmap_cons. constructor; [|exact IH].
  case_decide; [apply Hf|apply evolves_refl].
Qed.

Lemma evolves_toProcessing p : evolves p (toProcessing p).
Proof. by repeat split. Qed.

Lemma evolves_toProcessingAgain p : evolves p (toProcessingAgain p).
Proof. by repeat split. Qed.

Lemma evolves_settled o p : evolves p (settled o p).
Proof. destruct o; by repeat split. Qed.

Lemma evolves_step w e w' :
  step w e = Some w' → isProcessImages e = false →
  Forall2 evolves (processedImages (state w)) (processedImages (state w')).
Proof.
  intros Hstep He.
  destruct (step_images w e w' Hstep) as
    [(fresh & -> & _)
    |[[-> _]
    |[(n & image & bg & mode & options & _ & _ & _ & ->)
    |[(n & r & image & bg & mode & options & _ & _ & _ & ->)
    |[(imageId & correction & q & _ & _ & _ & _ & _ & ->)
    |(n & fetched & r & imageId & itc & correction & _ & _ & _ & ->)]]]]];
    try done.
  - apply Forall2_same_length_lookup. split; [done|].
    intros i p p' Hp Hp'. simplify_eq. apply evolves_refl.
  - apply evolves_updateImage, evolves_toProcessing.
  - apply evolves_updateImage, evolves_settled.
  - apply evolves_updateImage, evolves_toProcessingAgain.
  - apply evolves_updateImage, evolves_settled.
Qed.

Lemma Forall2_evolves_trans (l1 l2 l3 : list ProcessedImage) :
  Forall2 evolves l1 l2 → Forall2 evolves l2 l3 → Forall2 evolves l1 l3.
Proof.
  intros H12. revert l3. induction H12 as [|p1 p2 l1 l2 Hp _ IH]; intros l3 H23.
  - by inversion H23.
  - inversion H23 as [|? p3 ? l3' Hp' Hl']; subst. constructor.
    + by eapply evolves_trans.
    + by apply IH.
Qed.

End Reachable.

(** While the batch is kept (no new submission), no event adds, removes or
    reorders images, or changes the id, the file or the preview of an image;
    an image that has a result keeps having one, and an image that has left
    [pending] never returns to it. *)
Theorem images_evolve_in_place (w : App.World) (es : list App.Event) (w' : App.World) :
  App.run w es = Some w' →
  Forall (λ e, Inv.isProcessImages e = false) es →
  Forall2 evolves (App.processedImages (App.state w))
                  (App.processedImages (App.state w')).
Proof.
  revert w. induction es as [|e es IH]; intros w Hrun Hes; simpl in Hrun.
  - injection Hrun as <-. apply Forall2_same_length_lookup. split; [done|].
    intros i p p' Hp Hp'. simplify_eq. apply evolves_refl.
  - destruct (App.step w e) as [w1|] eqn:Hstep; [|done].
    apply Forall_cons in Hes as [He Hes].
    eapply Forall2_evolves_trans; [by eapply evolves_step|by apply IH].
Qed.

Lemma images_evolve_in_place_witness :
  Forall2 evolves (App.processedImages (App.state Sample.oneDone))
                  (App.processedImages (App.state Sample.failedRefinement)).
Proof.
  apply (images_evolve_in_place Sample.oneDone
           [ App.CorrectImage "job-1" "make the shadow softer";
             App.CorrectionSettled 0 Sample.fetchedResult
               (Resolved Sample.refusal) ]
           Sample.failedRefinement).
  - vm_compute. reflexivity.
  - repeat constructor.
Defined.

Section Shapes.

Import App Inv.

Implicit Types (w : World) (p q : ProcessedImage) (t : Task).

Lemma wellFormed_newImage file uuid_url : wellFormed (newImage file uuid_url).
Proof. by repeat split. Qed.

Lemma wellFormed_toProcessing p : wellFormed p → wellFormed (toProcessing p).
Proof. intros (H1 & H2 & H3). by repeat split. Qed.

Lemma wellFormed_toProcessingAgain p :
  wellFormed p → wellFormed (toProcessingAgain p).
Proof. intros (H1 & H2 & H3). by repeat split. Qed.

Lemma wellFormed_settled o p :
  (∀ url, o = Returns url → imageDataUrl url) →
  wellFormed p → wellFormed (settled o p).
Proof.
  intros Ho (H1 & H2 & H3). destruct o as [url|e]; repeat split; simpl; try done.
  intros u [= <-]. by apply Ho.
Qed.

Lemma wellFormed_step w e w' :
  step w e = Some w' →
  Forall wellFormed (processedImages (state w)) →
  Forall wellFormed (processedImages (state w')).
Proof.
  intros Hstep Hw.
  destruct (step_images w e w' Hstep) as
    [(fresh & _ & _ & _ & _ & ->)
    |[[-> _]
    |[(n & image & bg & mode & options & _ & _ & _ & ->)
    |[(n & r & image & bg & mode & options & _ & _ & _ & ->)
    |[(imageId & correction & q & _ & _ & _ & _ & _ & ->)
    |(n & fetched & r & imageId & itc & correction & _ & _ & _ & ->)]]]]];
    try done.
  - generalize (carImages (state w)). intros cars. revert fresh.
    induction cars as [|car cars IH]; intros [|uuid_url fresh]; simpl;
      constructor; [apply wellFormed_newImage|apply IH].
  - apply updateImage_Forall; [|done]. intros p Hp _.
    by apply wellFormed_toProcessing.
  - apply updateImage_Forall; [|done]. intros p Hp _.
    apply wellFormed_settled; [|done]. intros url.
    apply processCarImage_imageDataUrl.
  - apply updateImage_Forall; [|done]. intros p Hp _.
    by apply wellFormed_toProcessingAgain.
  - apply updateImage_Forall; [|done]. intros p Hp _.
    apply wellFormed_settled; [|done]. intros url.
    unfold correctionAttempt. destruct fetched as [blob|e0]; [|done].
    change (Returns blob, []) with (ret (A:=FetchedBlob) blob).
    rewrite bind_ret_l. apply correctImage_imageDataUrl.
Qed.

Lemma awaited_step w e w' :
  step w e = Some w' →
  (∀ p, p ∈ processedImages (state w) →
        status p = pending ∨ status p = processing → awaited w p) →
  ∀ p, p ∈ processedImages (state w') →
       status p = pending ∨ status p = processing → awaited w' p.
Proof.
  intros Hstep Hw p' Hp' Hst.
  destruct (step_images w e w' Hstep) as
    [(fresh & _ & Hrej & _ & -> & Hjobs)
    |[[Hjobs Htasks]
    |[(n & image & bg & mode & options & _ & Hn & Htasks & Hjobs)
    |[(n & r & image & bg & mode & options & _ & Hn & Htasks & Hjobs)
    |[(imageId & correction & q & _ & _ & _ & _ & Htasks & Hjobs)
    |(n & fetched & r & imageId & itc & correction & _ & Hn & Htasks & Hjobs)]]]]].
  - unfold awaited, handleProcessImages. rewrite Hrej. simpl.
    rewrite Hjobs in Hp'.
    eexists (Starting p' _ _ _). split; [|done].
    apply elem_of_app. right. apply list_elem_of_fmap. eauto.
  - rewrite Hjobs in Hp'. destruct (Hw p' Hp' Hst) as (t & Ht & Hid).
    exists t. by rewrite Htasks.
  - rewrite Hjobs in Hp'. apply updateImage_elem in Hp' as (p & Hp & ->).
    destruct (lookup_split _ _ _ Hn) as (l1 & l2 & Hl & _ & Hins).
    unfold awaited. rewrite Htasks, Hins.
    case_decide as Hid.
    + exists (Generating image bg mode options). split; [|done].
      apply elem_of_app. right. by left.
    + destruct (Hw p Hp Hst) as (t & Ht & Htid).
      rewrite Hl in Ht. apply elem_of_app in Ht as [Ht|[->|Ht]%elem_of_cons].
      * exists t. split; [|done]. apply elem_of_app. by left.
      * simpl in Htid. congruence.
      * exists t. split; [|done]. apply elem_of_app. right. by right.
  - rewrite Hjobs in Hp'. apply updateImage_elem in Hp' as (p & Hp & ->).
    destruct (lookup_split _ _ _ Hn) as (l1 & l2 & Hl & Hdel & _).
    unfold awaited. rewrite Htasks, Hdel.
    case_decide as Hid.
    + destruct (generationOutcome _ _ _ _ _), Hst as [?|?]; done.
    + destruct (Hw p Hp Hst) as (t & Ht & Htid).
      rewrite Hl in Ht. apply elem_of_app in Ht as [Ht|[->|Ht]%elem_of_cons].
      * exists t. split; [|done]. apply elem_of_app. by left.
      * simpl in Htid. congruence.
      * exists t. split; [|done]. apply elem_of_app. by right.
  - rewrite Hjobs in Hp'. apply updateImage_elem in Hp' as (p & Hp & ->).
    unfold awaited. rewrite Htasks.
    case_decide as Hid.
    + exists (Correcting imageId q correction). split; [|done].
      apply elem_of_app. right. by left.
    + destruct (Hw p Hp Hst) as (t & Ht & Htid).
      exists t. split; [|done]. apply elem_of_app. by left.
  - rewrite Hjobs in Hp'. apply updateImage_elem in Hp' as (p & Hp & ->).
    destruct (lookup_split _ _ _ Hn) as (l1 & l2 & Hl & Hdel & _).
    unfold awaited. rewrite Htasks, Hdel.
    case_decide as Hid.
    + destruct (result _), Hst as [?|?]; done.
    + destruct (Hw p Hp Hst) as (t & Ht & Htid).
      rewrite Hl in Ht. apply elem_of_app in Ht as [Ht|[->|Ht]%elem_of_cons].
      * exists t. split; [|done]. apply elem_of_app. by left.
      * simpl in Htid. congruence.
      * exists t. split; [|done]. apply elem_of_app. by right.
Qed.

Lemma guarded_step w e w' :
  step w e = Some w' → Forall guarded (inflight w) → Forall guarded (inflight w').
Proof.
  intros Hstep Hw.
  destruct (step_images w e w' Hstep) as
    [(fresh & _ & Hrej & _ & -> & _)
    |[[_ ->]
    |[(n & image & bg & mode & options & _ & Hn & -> & _)
    |[(n & r & image & bg & mode & options & _ & Hn & -> & _)
    |[(imageId & correction & q & _ & _ & _ & _ & -> & _)
    |(n & fetched & r & imageId & itc & correction & _ & Hn & -> & _)]]]]];
    try done.
  - unfold handleProcessImages. rewrite Hrej. simpl.
    apply Forall_app. split; [done|]. apply Forall_fmap, Forall_forall.
    intros image _. simpl.
    unfold submissionRejected in Hrej.
    apply orb_false_iff in Hrej as [_ Hrej].
    apply andb_false_iff in Hrej as [Hmode|Hbg].
    + left. apply bool_decide_eq_false in Hmode.
      by destruct (decide (processingMode (state w) = tint_turntable_only)).
    + right. apply negb_false_iff, bool_decide_eq_true in Hbg. done.
  - apply Forall_insert; [done|]. rewrite Forall_forall in Hw.
    apply (Hw (Starting image bg mode options)).
    apply list_elem_of_lookup. eauto.
  - by apply Forall_delete.
  - apply Forall_app. split; [done|]. by apply Forall_singleton.
  - by apply Forall_delete.
Qed.

End Shapes.

(** In every reachable world, an image in [error] has an error message, an
    image in [pending] has none, and the result of an image, when it has
    one, is the data URL of an image. *)
Theorem images_are_well_formed (w : App.World) (p : ProcessedImage) :
  App.reachable w →
  p ∈ App.processedImages (App.state w) →
  (status p = error → error_ p ≠ None)
  ∧ (status p = pending → error_ p = None)
  ∧ (∀ url, processedUrl p = Some url → Js.startsWith "data:image/" url = true).
Proof.
  intros Hw Hp.
  assert (Forall wellFormed (App.processedImages (App.state w))) as Hall.
  { clear Hp. revert w Hw. apply reachable_ind; [constructor|].
    intros w e w' _ IH Hstep. by eapply wellFormed_step. }
  rewrite Forall_forall in Hall. by apply Hall.
Qed.

Lemma images_are_well_formed_witness :
  (status (Sample.job Sample.failedRefinement 0) = error →
   error_ (Sample.job Sample.failedRefinement 0) ≠ None)
  ∧ (status (Sample.job Sample.failedRefinement 0) = pending →
     error_ (Sample.job Sample.failedRefinement 0) = None)
  ∧ (∀ url, processedUrl (Sample.job Sample.failedRefinement 0) = Some url →
            Js.startsWith "data:image/" url = true).
Proof.
  apply (images_are_well_formed Sample.failedRefinement
           (Sample.job Sample.failedRefinement 0)).
  - exists Sample.failedRefinementRun. vm_compute. reflexivity.
  - vm_compute. left.
Defined.

(** In every reachable world, an image that is [pending] or [processing] has
    a call in flight that will update it; so when no call is in flight,
    every image is [done] or in [error]. *)
Theorem unsettled_images_are_awaited (w : App.World) (p : ProcessedImage) :
  App.reachable w →
  p ∈ App.processedImages (App.state w) →
  (status p = pending ∨ status p = processing →
   ∃ t, t ∈ App.inflight w ∧ Inv.taskId t = id p)
  ∧ (App.inflight w = [] → status p = done ∨ status p = error).
Proof.
  intros Hw Hp.
  assert (∀ q, q ∈ App.processedImages (App.state w) →
               status q = pending ∨ status q = processing → awaited w q) as Hall.
  { clear Hp. revert w Hw.
    apply (reachable_ind
             (λ w, ∀ q, q ∈ App.processedImages (App.state w) →
                        status q = pending ∨ status q = processing →
                        awaited w q)).
    - by intros q ?%elem_of_nil.
    - intros w e w' _ IH Hstep. by eapply awaited_step. }
  split; [by apply Hall|].
  intros Hnone.
  destruct (status p) eqn:Hst; [| |by left|by right].
  - destruct (Hall p Hp) as (t & Ht & _); [by left|].
    rewrite Hnone in Ht. by apply elem_of_nil in Ht.
  - destruct (Hall p Hp) as (t & Ht & _); [by right|].
    rewrite Hnone in Ht. by apply elem_of_nil in Ht.
Qed.

Lemma unsettled_images_are_awaited_witness :
  ((status Scenario.second = pending ∨ status Scenario.second = processing →
    ∃ t, t ∈ App.inflight Scenario.threeGenerating
         ∧ Inv.taskId t = id Scenario.second)
   ∧ (App.inflight Scenario.threeGenerating = [] →
      status Scenario.second = done ∨ status Scenario.second = error))
  ∧ status Scenario.second = processing
  ∧ App.inflight Scenario.threeGenerating !! 1%nat
    = Some (App.Generating Scenario.capturedSecond (Some Sample.background)
              full Scenario.submittedOptions)
  ∧ Inv.taskId (App.Generating Scenario.capturedSecond (Some Sample.background)
                  full Scenario.submittedOptions)
    = id Scenario.second.
Proof.
  split; [|by vm_compute].
  apply (unsettled_images_are_awaited Scenario.threeGenerating Scenario.second).
  - exists Scenario.threeGeneratingRun. vm_compute. reflexivity.
  - vm_compute. right. left.
Defined.

(** The generations of a reachable world passed the guard of
    [handleProcessImages]: each has a background image or is in the mode
    that needs none, so that [processCarImage] does not stop for a missing
    background.  Whatever the model answers, it sends its one request once
    the car image, and the background image in the modes that use one, are
    read; when the reader fails on one of them, it sends nothing and throws
    the failure of the reader. *)
Theorem submitted_generations_reach_the_model
    (w : App.World) (n : nat) (image : ProcessedImage) (bg : option File)
    (mode : ProcessingMode) (options : ProcessingOptions) (api : Request → reply) :
  App.reachable w →
  App.inflight w !! n = Some (App.Starting image bg mode options)
  ∨ App.inflight w !! n = Some (App.Generating image bg mode options) →
  (mode = tint_turntable_only ∨ is_Some bg)
  ∧ (if readable (originalFile image)
        && (bool_decide (mode = tint_turntable_only)
            || from_option readable true bg)
     then length (networkCalls
                    (processCarImage api (originalFile image) bg mode options))
          = 1%nat
     else processCarImage api (originalFile image) bg mode options
          = (Throws NotAnError, [])).
Proof.
  intros Hw Hn.
  assert (Forall guarded (App.inflight w)) as Hall.
  { clear Hn. revert w Hw. apply reachable_ind; [constructor|].
    intros w e w' _ IH Hstep. by eapply guarded_step. }
  rewrite Forall_forall in Hall.
  assert (mode = tint_turntable_only ∨ is_Some bg) as Hok.
  { destruct Hn as [Hn|Hn].
    - apply (Hall (App.Starting image bg mode options)).
      apply list_elem_of_lookup. eauto.
    - apply (Hall (App.Generating image bg mode options)).
      apply list_elem_of_lookup. eauto. }
  split; [done|].
  change (readable (originalFile image)
          && (bool_decide (mode = tint_turntable_only)
              || from_option readable true bg))
    with (filesRead (originalFile image) bg mode).
  destruct (filesRead (originalFile image) bg mode) eqn:Hread.
  - destruct (processCarImage_sends api (originalFile image) bg mode options
                Hok Hread) as [ps ->].
    by rewrite one_call.
  - by apply processCarImage_lost.
Qed.

Lemma submitted_generations_reach_the_model_witness :
  ((full = tint_turntable_only ∨ is_Some (Some Sample.background))
   ∧ length (networkCalls
               (processCarImage (λ _, Resolved Sample.refusal)
                  (originalFile Scenario.capturedSecond) (Some Sample.background)
                  full Scenario.submittedOptions))
     = 1%nat)
  ∧ processCarImage (λ _, Resolved Sample.refusal) Sample.lostCar
      (Some Sample.background) full Scenario.submittedOptions
    = (Throws NotAnError, []).
Proof.
  split; [|by vm_compute].
  apply (submitted_generations_reach_the_model Scenario.threeGenerating 1
           Scenario.capturedSecond (Some Sample.background) full
           Scenario.submittedOptions (λ _, Resolved Sample.refusal)).
  - exists Scenario.threeGeneratingRun. vm_compute. reflexivity.
  - right. vm_compute. reflexivity.
Defined.

(** ** Generations *)

Section Generations.

Import App Inv.

Lemma generations_are_guarded w t :
  reachable w → t ∈ inflight w → guarded t.
Proof.
  intros Hw. revert t.
  assert (Forall guarded (inflight w)) as Hall.
  { revert w Hw. apply reachable_ind; [constructor|].
    intros w e w' _ IH Hstep. by eapply guarded_step. }
  by apply Forall_forall.
Qed.

(** The generation of the image at position [j] settles. *)
Lemma generation_settles w n r image bg mode options j q :
  reachable w →
  inflight w !! n = Some (Generating image bg mode options) →
  processedImages (state w) !! j = Some q →
  id q = id image →
  processedUrl q = None
  ∧ (mode = tint_turntable_only ∨ is_Some bg)
  ∧ (∀ k, k ≠ j →
       processedImages (finishGeneration r image bg mode options (state w)) !! k
       = processedImages (state w) !! k)
  ∧ processedImages (finishGeneration r image bg mode options (state w)) !! j
    = Some (settled (generationOutcome r image bg mode options) q).
Proof.
  intros Hw Hn Hj Hid.
  assert (Generating image bg mode options ∈ inflight w) as Ht
    by (apply list_elem_of_lookup; eauto).
  pose proof (generations_are_guarded w _ Hw Ht) as Hok.
  apply reachable_invariant in Hw.
  pose proof (inv_ids w Hw) as Hnd.
  pose proof (inv_tasks w Hw) as Htasks. rewrite Forall_forall in Htasks.
  destruct (Htasks _ Ht) as [_ Hreq].
  destruct (Hreq q) as [_ Hurl]; [apply list_elem_of_lookup; eauto|done|].
  simpl. unfold settle. rewrite <- Hid. split_and!.
  - done.
  - exact Hok.
  - intros k Hk. by apply (updateImage_others _ j q).
  - by apply updateImage_lookup_eq.
Qed.

End Generations.

(** When the generation of one image settles, with a result or with a
    failure, the event removes that call from the calls in flight, updates
    that image and leaves the image at every other position as it was. *)
Theorem generation_changes_only_its_image
    (w : App.World) (n : nat) (r : reply) (image : ProcessedImage)
    (bg : option File) (mode : ProcessingMode) (options : ProcessingOptions)
    (j : nat) (q : ProcessedImage) :
  App.reachable w →
  App.inflight w !! n = Some (App.Generating image bg mode options) →
  App.processedImages (App.state w) !! j = Some q →
  id q = id image →
  ∃ w', App.step w (App.GenerationSettled n r) = Some w'
        ∧ App.inflight w' = delete n (App.inflight w)
        ∧ (∀ k, k ≠ j →
             App.processedImages (App.state w') !! k
             = App.processedImages (App.state w) !! k)
        ∧ ∃ q', App.processedImages (App.state w') !! j = Some q'
                ∧ id q' = id q ∧ originalFile q' = originalFile q
                ∧ originalUrl q' = originalUrl q
                ∧ (status q' = done ∨ status q' = error).
Proof.
  intros Hw Hn Hj Hid.
  destruct (generation_settles w n r image bg mode options j q Hw Hn Hj Hid)
    as (_ & _ & Hothers & Hmine).
  eexists. simpl. rewrite Hn. split; [reflexivity|]. simpl.
  split_and!; [done|exact Hothers|].
  eexists. split; [exact Hmine|].
  destruct (App.generationOutcome r image bg mode options); simpl; auto.
Qed.

Lemma generation_changes_only_its_image_witness :
  ∃ w', App.step Scenario.threeGenerating
          (App.GenerationSettled 1 (Resolved Sample.refusal)) = Some w'
        ∧ App.inflight w' = delete 1%nat (App.inflight Scenario.threeGenerating)
        ∧ (∀ k, k ≠ 1%nat →
             App.processedImages (App.state w') !! k
             = App.processedImages (App.state Scenario.threeGenerating) !! k)
        ∧ ∃ q', App.processedImages (App.state w') !! 1%nat = Some q'
                ∧ id q' = id Scenario.second
                ∧ originalFile q' = originalFile Scenario.second
                ∧ originalUrl q' = originalUrl Scenario.second
                ∧ (status q' = done ∨ status q' = error).
Proof.
  apply (generation_changes_only_its_image Scenario.threeGenerating 1
           (Resolved Sample.refusal) Scenario.capturedSecond
           (Some Sample.background) full Scenario.submittedOptions
           1 Scenario.second).
  - exists Scenario.threeGeneratingRun. vm_compute. reflexivity.
  - vm_compute. reflexivity.
  - vm_compute. reflexivity.
  - reflexivity.
Defined.

(** What an answer of the model makes of the image that waits for it, once
    the files are read.  With an image part among the parts that the loops
    examine, the image is [done] and its result is the data URL of the first
    image part.  With none, the image is in [error], without a result: its
    message is the message of the [TypeError] when a candidate of the answer
    has no content or no parts, or inline data no type; otherwise it is the
    text of the answer after the fixed words, when the answer has a text that
    is not empty, and the fixed no-image message when it has not.  When the
    reader failed on a file, the image is in [error] without a result, with
    the message for a failure that is no [Error]. *)
Theorem generation_outcome
    (w : App.World) (n : nat) (response : GenerateContentResponse)
    (image : ProcessedImage) (bg : option File) (mode : ProcessingMode)
    (options : ProcessingOptions) (j : nat) (q : ProcessedImage) :
  App.reachable w →
  App.inflight w !! n = Some (App.Generating image bg mode options) →
  App.processedImages (App.state w) !! j = Some q →
  id q = id image →
  ∃ q',
    App.processedImages
      (App.finishGeneration (Resolved response) image bg mode options
         (App.state w)) !! j = Some q'
    ∧ if readable (originalFile image)
         && (bool_decide (mode = tint_turntable_only)
             || from_option readable true bg)
      then
        match firstImage (responseParts response) with
        | Some url => status q' = done ∧ processedUrl q' = Some url
        | None =>
            status q' = error
            ∧ processedUrl q' = None
            ∧ ∃ message,
                error_ q' = Some message
                ∧ match responseFault response with
                  | Some fault =>
                      fault = Error message
                      ∧ fault ∈ [contentMissing; partsMissing; mimeTypeMissing]
                  | None =>
                      message
                      = if Js.truthy_opt (response_text response)
                        then "API returned a text response instead of an image: "
                             +:+ default EmptyString (response_text response)
                        else "No image was generated by the API."
                  end
        end
      else status q' = error
           ∧ processedUrl q' = None
           ∧ error_ q' = Some "An unknown error occurred.".
Proof.
  intros Hw Hn Hj Hid.
  destruct (generation_settles w n (Resolved response) image bg mode options
              j q Hw Hn Hj Hid) as (Hurl & Hok & _ & Hmine).
  eexists. split; [exact Hmine|].
  unfold App.generationOutcome.
  change (readable (originalFile image)
          && (bool_decide (mode = tint_turntable_only)
              || from_option readable true bg))
    with (filesRead (originalFile image) bg mode).
  destruct (filesRead (originalFile image) bg mode) eqn:Hread; cycle 1.
  { by rewrite processCarImage_lost. }
  destruct (processCarImage_sends (λ _, Resolved response) (originalFile image)
              bg mode options Hok Hread) as [ps ->].
  rewrite (answered_result _ ps response eq_refl).
  destruct (firstImage (responseParts response)) as [url|] eqn:Hscan.
  - by rewrite (readResponse_image response url Hscan).
  - rewrite (readResponse_no_image response Hscan). simpl.
    split_and!; [done..|].
    destruct (responseFault response) as [fault|] eqn:Hfault.
    + pose proof (responseFault_cases response fault Hfault) as Hcases.
      rewrite !elem_of_cons in Hcases.
      destruct Hcases as [->|[->|[->|[]%elem_of_nil]]];
        (eexists; split; [reflexivity|]; split; [reflexivity|]);
        rewrite !elem_of_cons; auto.
    + eexists. split; [reflexivity|].
      by destruct (Js.truthy_opt (response_text response)).
Qed.

Lemma generation_outcome_witness :
  (∃ q',
     App.processedImages
       (App.finishGeneration (Resolved Sample.blocked) Scenario.capturedSecond
          (Some Sample.background) full Scenario.submittedOptions
          (App.state Scenario.threeGenerating)) !! 1%nat = Some q'
     ∧ status q' = error
     ∧ processedUrl q' = None
     ∧ ∃ message,
         error_ q' = Some message
         ∧ contentMissing = Error message
         ∧ contentMissing ∈ [contentMissing; partsMissing; mimeTypeMissing])
  ∧ error_ (App.settled
              (App.generationOutcome (Resolved Sample.blocked)
                 Scenario.capturedSecond (Some Sample.background) full
                 Scenario.submittedOptions) Scenario.second)
    = Some "Cannot read properties of undefined (reading 'parts')"
  ∧ error_ (App.settled
              (App.generationOutcome (Resolved Sample.refusal)
                 Scenario.capturedSecond (Some Sample.background) full
                 Scenario.submittedOptions) Scenario.second)
    = Some "API returned a text response instead of an image: I cannot edit this image."
  ∧ error_ (App.settled
              (App.generationOutcome (Resolved Sample.noParts)
                 Scenario.capturedSecond (Some Sample.background) full
                 Scenario.submittedOptions) Scenario.second)
    = Some "No image was generated by the API.".
Proof.
  split; [|by vm_compute].
  apply (generation_outcome Scenario.threeGenerating 1 Sample.blocked
           Scenario.capturedSecond (Some Sample.background) full
           Scenario.submittedOptions 1 Scenario.second).
  - exists Scenario.threeGeneratingRun. vm_compute. reflexivity.
  - vm_compute. reflexivity.
  - vm_compute. reflexivity.
  - reflexivity.
Defined.

(** ** Submissions *)

Section Submissions.

Import App Inv.

Lemma updateImage_absent imageId f (jobs : list ProcessedImage) :
  (∀ p, p ∈ jobs → id p ≠ imageId) → updateImage imageId f jobs = jobs.
Proof.
  intros H. unfold updateImage. induction jobs as [|p jobs IH]; [done|].
  rewrite fmap_cons. rewrite decide_False by (apply H; left).
  f_equal. apply IH. intros q Hq. apply H. by right.
Qed.

End Submissions.

(** A submission that passes the guard, with one fresh id and preview URL
    per car image, replaces the batch by one image per car image, in the
    order of the car images: each with its file, its id and its preview,
    [pending], without result and without error message; it clears the
    global error notice and adds one call per image to the calls in
    flight. *)
Theorem submission_creates_the_batch
    (fresh : list (string * string)) (w : App.World) :
  App.submissionRejected (App.state w) = false →
  length fresh = length (App.carImages (App.state w)) →
  let w' := App.handleProcessImages fresh w in
  length (App.processedImages (App.state w'))
    = length (App.carImages (App.state w))
  ∧ (∀ i file, App.carImages (App.state w) !! i = Some file →
       ∃ uuid url,
         fresh !! i = Some (uuid, url)
         ∧ App.processedImages (App.state w') !! i
           = Some {| id := uuid; originalFile := file; originalUrl := url;
                     processedUrl := None; status := pending; error_ := None |})
  ∧ App.globalError (App.state w') = None
  ∧ length (App.inflight w')
    = (length (App.inflight w) + length (App.carImages (App.state w)))%nat
  ∧ (∀ i p, App.processedImages (App.state w') !! i = Some p →
       App.inflight w' !! (length (App.inflight w) + i)%nat
       = Some (App.Starting p (App.backgroundImage (App.state w))
                 (App.processingMode (App.state w))
                 {| floorEffect := Some (App.floorEffect (App.state w));
                    matchReflections := Some (App.matchReflections (App.state w));
                    turntableTint := Some (App.turntableTint (App.state w)) |})).
Proof.
  intros Hrej Hlen w'. subst w'. unfold App.handleProcessImages.
  rewrite Hrej. simpl.
  assert (length (zip_with App.newImage (App.carImages (App.state w)) fresh)
          = length (App.carImages (App.state w))) as Hlen'.
  { rewrite length_zip_with_l_eq; [done|]. by rewrite Hlen. }
  split_and!.
  - done.
  - intros i file Hfile.
    destruct (fresh !! i) as [[uuid url]|] eqn:Hfresh.
    + exists uuid, url. split; [done|].
      by rewrite lookup_zip_with, Hfile, Hfresh.
    + apply lookup_ge_None in Hfresh. apply lookup_lt_Some in Hfile. lia.
  - done.
  - by rewrite length_app, length_fmap, Hlen'.
  - intros i p Hp.
    rewrite lookup_app_r by lia.
    replace (length (App.inflight w) + i - length (App.inflight w))%nat
      with i by lia.
    by rewrite list_lookup_fmap, Hp.
Qed.

Lemma submission_creates_the_batch_witness :
  let fresh := [("job-1", "blob:1")] in
  let w := Sample.noBackground in
  let w' :=
    App.handleProcessImages fresh
      {| App.state := App.setProcessingMode tint_turntable_only (App.state w);
         App.inflight := App.inflight w; App.issued := App.issued w |} in
  length (App.processedImages (App.state w')) = 1%nat
  ∧ App.processedImages (App.state w') !! 0%nat
    = Some {| id := "job-1"; originalFile := Sample.car "car.jpg";
              originalUrl := "blob:1"; processedUrl := None;
              status := pending; error_ := None |}.
Proof.
  pose proof (submission_creates_the_batch [("job-1", "blob:1")]
                {| App.state :=
                     App.setProcessingMode tint_turntable_only
                       (App.state Sample.noBackground);
                   App.inflight := App.inflight Sample.noBackground;
                   App.issued := App.issued Sample.noBackground |}) as H.
  destruct H as (Hlen & Hjobs & _); [reflexivity|reflexivity|].
  split; [exact Hlen|].
  destruct (Hjobs 0%nat (Sample.car "car.jpg") eq_refl) as (uuid & url & Hf & Hj).
  injection Hf as <- <-. exact Hj.
Defined.

(** Right after a new submission, the calls of the previous batch that are
    still in flight cannot touch the new batch: the event that continues
    one of them leaves every image as the submission made it. *)
Theorem stale_calls_leave_the_new_batch
    (w : App.World) (fresh : list (string * string)) (e : App.Event)
    (n : nat) (w2 : App.World) :
  App.reachable w →
  App.submissionRejected (App.state w) = false →
  App.freshIds fresh w →
  continued e = Some n →
  (n < length (App.inflight w))%nat →
  App.step (App.handleProcessImages fresh w) e = Some w2 →
  App.processedImages (App.state w2)
  = App.processedImages (App.state (App.handleProcessImages fresh w)).
Proof.
  intros Hw Hrej Hfresh He Hn Hstep.
  pose proof (reachable_invariant w Hw) as Hinv.
  pose proof (invariant_processImages w fresh Hinv Hrej Hfresh) as Hinv1.
  set (w1 := App.handleProcessImages fresh w) in *.
  assert (App.inflight w1 !! n = App.inflight w !! n) as Hsame.
  { unfold w1, App.handleProcessImages. rewrite Hrej. simpl.
    by rewrite lookup_app_l. }
  assert (∀ t, App.inflight w !! n = Some t →
               ∀ p, p ∈ App.processedImages (App.state w1) →
                    id p ≠ Inv.taskId t) as Hstale.
  { intros t Ht p Hp Hid.
    pose proof (Inv.inv_tasks w Hinv) as Htasks. rewrite Forall_forall in Htasks.
    destruct (Htasks t) as [Hissued _]; [apply list_elem_of_lookup; eauto|].
    destruct Hfresh as (Hlen & _ & Hnew). rewrite Forall_forall in Hnew.
    apply (Hnew (id p)); [|by rewrite Hid].
    rewrite <- (newImages_ids (App.carImages (App.state w)) fresh Hlen).
    apply list_elem_of_fmap_2.
    unfold w1, App.handleProcessImages in Hp. by rewrite Hrej in Hp. }
  destruct e; simplify_eq/=; rewrite Hsame in Hstep;
    destruct (App.inflight w !! n) as [t|] eqn:Ht; try done;
    destruct t; simplify_eq/=; unfold App.settle;
    apply updateImage_absent; intros p Hp; by eapply (Hstale _ eq_refl).
Qed.

Lemma stale_calls_leave_the_new_batch_witness :
  App.processedImages
    (App.finishGeneration (Resolved Sample.imageAnswer) Scenario.capturedSecond
       (Some Sample.background) full Scenario.submittedOptions
       (App.state (App.handleProcessImages Scenario.resubmittedIds
                     Scenario.threeGenerating)))
  = App.processedImages
      (App.state (App.handleProcessImages Scenario.resubmittedIds
                    Scenario.threeGenerating)).
Proof.
  apply (stale_calls_leave_the_new_batch Scenario.threeGenerating
           Scenario.resubmittedIds
           (App.GenerationSettled 1 (Resolved Sample.imageAnswer)) 1
           {| App.state :=
                App.finishGeneration (Resolved Sample.imageAnswer)
                  Scenario.capturedSecond (Some Sample.background) full
                  Scenario.submittedOptions
                  (App.state (App.handleProcessImages Scenario.resubmittedIds
                                Scenario.threeGenerating));
              App.inflight :=
                delete 1%nat
                  (App.inflight (App.handleProcessImages Scenario.resubmittedIds
                                   Scenario.threeGenerating));
              App.issued :=
                App.issued (App.handleProcessImages Scenario.resubmittedIds
                              Scenario.threeGenerating) |}).
  - exists Scenario.threeGeneratingRun. vm_compute. reflexivity.
  - reflexivity.
  - apply (bool_decide_unpack (App.freshIds Scenario.resubmittedIds
                                 Scenario.threeGenerating)).
    vm_compute. exact I.
  - reflexivity.
  - vm_compute. lia.
  - vm_compute. reflexivity.
Defined.

(** ** The buttons *)

(** The Generate button is enabled exactly when no batch is being processed
    and the guard of [handleProcessImages] would let the submission pass. *)
Theorem canProcess_agrees_with_the_guard (isProcessing : bool) (s : App.State) :
  Ui.canProcess isProcessing s
  = negb isProcessing && negb (App.submissionRejected s).
Proof.
  unfold Ui.canProcess, App.submissionRejected.
  destruct isProcessing; [done|]. simpl.
  destruct (length (App.carImages s) =? 0)%nat; [done|]. simpl.
  destruct (decide (App.processingMode s = tint_turntable_only)) as [Hm|Hm].
  - rewrite (bool_decide_eq_true_2 _ Hm).
    by rewrite bool_decide_eq_false_2 by auto.
  - rewrite (bool_decide_eq_false_2 _ Hm).
    rewrite (bool_decide_eq_true_2 _ Hm). simpl.
    destruct (App.backgroundImage s) as [bg|].
    + rewrite bool_decide_eq_true_2 by done.
      by rewrite bool_decide_eq_true_2 by eauto.
    + rewrite bool_decide_eq_false_2 by auto.
      by rewrite bool_decide_eq_false_2 by (by intros [? ?]).
Qed.

(** ** Downloads *)

Section Downloads.

Import App Ui.

Lemma addFiles_omap fetch images zip :
  addFiles fetch images zip = zip ++ omap (exported fetch) images.
Proof.
  revert zip. induction images as [|image images IH]; intros zip.
  - simpl. by rewrite app_nil_r.
  - change (omap (exported fetch) (image :: images))
      with (match exported fetch image with
            | Some y => y :: omap (exported fetch) images
            | None => omap (exported fetch) images
            end).
    unfold exported at 1. cbn [addFiles].
    destruct (fetch (default "null" (processedUrl image))) as [blob|e].
    + rewrite IH. by rewrite <- app_assoc.
    + apply IH.
Qed.



Lemma omap_exported_cons fetch image images :
  omap (exported fetch) (image :: images)
  = match fetch (default "null" (processedUrl image)) with
    | Returns blob =>
        (getOutputFilename (name (originalFile image)), blob)
        :: omap (exported fetch) images
    | Throws _ => omap (exported fetch) images
    end.
Proof.
  change (omap (exported fetch) (image :: images))
    with (match exported fetch image with
          | Some y => y :: omap (exported fetch) images
          | None => omap (exported fetch) images
          end).
  unfold exported at 1.
  by destruct (fetch (default "null" (processedUrl image))).
Qed.


Lemma exported_nothing fetch (l : list ProcessedImage) :
  (∀ url, ∃ e, fetch url = Throws e) → omap (exported fetch) l = [].
Proof.
  intros Hfail. induction l as [|p l IH]; [done|].
  rewrite omap_exported_cons.
  by destruct (Hfail (default "null" (processedUrl p))) as [e ->].
Qed.

End Downloads.



(** Download All, whatever the state: without [JSZip] it only sets the
    global notice; a fetch that fails drops the file of its own image and
    nothing else, so that every file of the archive comes from an image that
    is [done] and whose result could be fetched; and when every fetch fails
    while some image is [done], an empty archive is still downloaded. *)
Theorem download_skips_failed_fetches
    (fetch : string → outcome App.FetchedBlob)
    (generateAsync : list (string * App.FetchedBlob) → bool) (s : App.State) :
  let zip := Ui.addFiles fetch (Ui.successfulImages s) [] in
  Ui.handleDownloadAll false fetch generateAsync s
    = (App.setGlobalError (Some Ui.zipMissingNotice) s, None)
  ∧ zip = omap (exported fetch) (Ui.successfulImages s)
  ∧ (∀ filename blob, (filename, blob) ∈ zip →
       ∃ p url, p ∈ App.processedImages s ∧ status p = done
                ∧ processedUrl p = Some url ∧ fetch url = Returns blob
                ∧ filename = App.getOutputFilename (name (originalFile p)))
  ∧ ((∀ url, ∃ e, fetch url = Throws e) →
     Ui.successfulImages s ≠ [] → generateAsync [] = true →
     Ui.handleDownloadAll true fetch generateAsync s
     = (s, Some ("autoshade-studio-results.zip", []))).
Proof.
  intros zip.
  assert (zip = omap (exported fetch) (Ui.successfulImages s)) as Hzip
    by apply addFiles_omap.
  split_and!; [done|done| |].
  - intros filename blob. rewrite Hzip.
    intros (p & Hp & Hex)%list_elem_of_omap.
    apply list_elem_of_filter in Hp as [[Hst Hurl] Hp].
    destruct (processedUrl p) as [url|] eqn:Hu; [|done].
    exists p, url. unfold exported in Hex. rewrite Hu in Hex. simpl in Hex.
    destruct (fetch url) as [b|e]; [|done]. by simplify_eq.
  - intros Hfail Hsome Hgen.
    assert (zip = []) as Hnil by (rewrite Hzip; by apply exported_nothing).
    unfold Ui.handleDownloadAll. simpl. fold zip. rewrite Hnil, Hgen.
    destruct (Ui.successfulImages s); done.
Qed.

(** In a reachable world the Download and Refine controls of a card are
    rendered exactly for the images that are [done]: the test on the
    result that goes with the test on the status never fails. *)
Theorem controls_follow_the_status (w : App.World) (p : ProcessedImage) :
  App.reachable w →
  p ∈ App.processedImages (App.state w) →
  refineOffered p = bool_decide (status p = done).
Proof.
  intros Hw Hp.
  pose proof (Inv.inv_jobs w (reachable_invariant w Hw)) as Hjobs.
  rewrite Forall_forall in Hjobs. destruct (Hjobs p Hp) as [Hdone _].
  unfold refineOffered.
  destruct (decide (status p = done)) as [Hst|Hst].
  - by rewrite (bool_decide_eq_true_2 _ Hst), (Hdone Hst).
  - by rewrite (bool_decide_eq_false_2 _ Hst).
Qed.

Lemma controls_follow_the_status_witness :
  refineOffered (Sample.job Sample.failedRefinement 0)
  = bool_decide (status (Sample.job Sample.failedRefinement 0) = done).
Proof.
  apply (controls_follow_the_status Sample.failedRefinement
           (Sample.job Sample.failedRefinement 0)).
  - exists Sample.failedRefinementRun. vm_compute. reflexivity.
  - vm_compute. left.
Defined.

(** ** The file picker *)

(** When [handleFiles] hands files to its callback, there is at least one;
    they are files of the selection, in its order; each has a type that
    occurs in the [accept] string and a size of at most 10 MiB; and there is
    at most one of them, or at most fifty when several may be picked. *)
Theorem handleFiles_selection
    (size : File → N) (accept : string) (multiple : bool)
    (files selected : list File) :
  ImageUploader.handleFiles size accept multiple (Some files) = Some selected →
  selected ≠ []
  ∧ selected `sublist_of` files
  ∧ Forall (λ file, Js.includes (type file) accept = true
                    ∧ (size file ≤ 10 * 1024 * 1024)%N) selected
  ∧ (length selected ≤ if multiple then 50 else 1)%nat.
Proof.
  unfold ImageUploader.handleFiles.
  set (typed := filter (λ file, Js.includes (type file) accept = true) files).
  set (small := filter (λ file, (size file ≤ ImageUploader.MAX_SIZE_BYTES)%N) typed).
  set (kept := if negb multiple then take 1 small
               else take ImageUploader.MAX_FILES small).
  destruct (0 <? length kept)%nat eqn:Hlen; [|done]. intros [= <-].
  assert (kept `sublist_of` small) as Hks
    by (unfold kept; destruct multiple; apply sublist_take).
  assert (small `sublist_of` typed) as Hst by apply sublist_filter.
  assert (typed `sublist_of` files) as Htf by apply sublist_filter.
  split_and!.
  - intros Hnil. by rewrite Hnil in Hlen.
  - by do 2 (etrans; [eassumption|]).
  - apply Forall_forall. intros file Hfile.
    assert (file ∈ small) as Hsmall by by eapply elem_of_sublist.
    apply list_elem_of_filter in Hsmall as [Hsize Htyped].
    apply list_elem_of_filter in Htyped as [Htype _]. done.
  - unfold kept, ImageUploader.MAX_FILES.
    destruct multiple; simpl; rewrite length_take; lia.
Qed.

Lemma handleFiles_selection_witness :
  [Sample.background] ≠ []
  ∧ [Sample.background] `sublist_of` [Sample.background; Sample.car "car.gif"]
  ∧ Forall (λ file, Js.includes (type file) "image/png, image/webp" = true
                    ∧ (sampleSize file ≤ 10 * 1024 * 1024)%N) [Sample.background]
  ∧ (length [Sample.background] ≤ 1)%nat.
Proof.
  apply (handleFiles_selection sampleSize "image/png, image/webp" false
           [Sample.background; Sample.car "car.gif"] [Sample.background]).
  vm_compute. reflexivity.
Defined.

(** The type filter of [handleFiles] is a substring test, so a file whose
    type is the empty string (a type the browser could not tell) passes it
    whatever the [accept] string: alone in the selection and small enough,
    it is handed to the callback. *)
Theorem handleFiles_accepts_the_empty_type
    (size : File → N) (accept : string) (multiple : bool) (file : File) :
  type file = EmptyString →
  (size file ≤ 10 * 1024 * 1024)%N →
  ImageUploader.handleFiles size accept multiple (Some [file]) = Some [file].
Proof.
  intros Htype Hsize. unfold ImageUploader.handleFiles.
  rewrite filter_cons_True, filter_nil.
  - rewrite filter_cons_True, filter_nil by done. by destruct multiple.
  - rewrite Htype. by destruct accept.
Qed.

Lemma handleFiles_accepts_the_empty_type_witness :
  ImageUploader.handleFiles sampleSize ImageUploader.defaultAccept true
    (Some [ {| name := "photo"; type := EmptyString; base64 := "QUJD";
             readable := true |} ])
  = Some [ {| name := "photo"; type := EmptyString; base64 := "QUJD";
             readable := true |} ].
Proof.
  apply (handleFiles_accepts_the_empty_type sampleSize
           ImageUploader.defaultAccept true
           {| name := "photo"; type := EmptyString; base64 := "QUJD";
             readable := true |}).
  - reflexivity.
  - vm_compute. discriminate.
Defined.

(** ** Dragging over the window *)

Section Dragging.

Import Ui.

Lemma drags_app d es1 es2 : drags (drags d es1) es2 = drags d (es1 ++ es2).
Proof. unfold drags. by rewrite foldl_app. Qed.

(** Under a counter that is at least one, a nested sequence of events
    gives the counter back and never hides the overlay. *)
Lemma nested_inner es :
  nested es →
  ∀ d, (1 ≤ dragCounter d)%Z →
       dragCounter (drags d es) = dragCounter d
       ∧ (isDragging d = true → isDragging (drags d es) = true).
Proof.
  induction 1 as [|es _ IH|hasItems es1 es2 _ IH1 _ IH2]; intros d Hd.
  - done.
  - by apply IH.
  - change (DragEnter hasItems :: es1 ++ DragLeave :: es2)
      with ([DragEnter hasItems] ++ es1 ++ [DragLeave] ++ es2).
    rewrite <- !drags_app.
    set (d1 := drags d [DragEnter hasItems]).
    assert (dragCounter d1 = dragCounter d + 1)%Z as Hc1 by done.
    assert (isDragging d = true → isDragging d1 = true) as Hi1.
    { intros Hi. unfold d1, drags. simpl. by destruct hasItems. }
    destruct (IH1 d1) as [Hc2 Hi2]; [lia|].
    set (d2 := drags d1 es1) in *.
    set (d3 := drags d2 [DragLeave]).
    assert (dragCounter d3 = dragCounter d) as Hc3.
    { unfold d3, drags. simpl. lia. }
    assert (isDragging d2 = true → isDragging d3 = true) as Hi3.
    { intros Hi. unfold d3, drags. simpl.
      destruct (dragCounter d2 - 1 =? 0)%Z eqn:Hz; [|done].
      apply Z.eqb_eq in Hz. lia. }
    destruct (IH2 d3) as [Hc4 Hi4]; [lia|].
    split; [lia|auto].
Qed.

End Dragging.

(** A drag that enters the window and leaves it, with every enter matched by
    a leave (enters and leaves of nested elements in between), brings the
    handlers back to rest: the counter is 0 and the overlay is hidden. *)
Theorem balanced_drags_end_at_rest (es : list Ui.DragEvent) :
  nested es → Ui.drags Ui.atRest es = Ui.atRest.
Proof.
  induction 1 as [|es _ IH|hasItems es1 es2 H1 _ _ IH2]; [done|exact IH|].
  change (Ui.DragEnter hasItems :: es1 ++ Ui.DragLeave :: es2)
    with ([Ui.DragEnter hasItems] ++ es1 ++ [Ui.DragLeave] ++ es2).
  rewrite <- !drags_app.
  set (d1 := Ui.drags Ui.atRest [Ui.DragEnter hasItems]).
  destruct (nested_inner es1 H1 d1) as [Hc _]; [done|].
  replace (Ui.drags (Ui.drags d1 es1) [Ui.DragLeave]) with Ui.atRest; [exact IH2|].
  change (Ui.drags (Ui.drags d1 es1) [Ui.DragLeave])
    with (Ui.handleWindowDragLeave (Ui.drags d1 es1)).
  unfold Ui.handleWindowDragLeave. by rewrite Hc.
Qed.

Lemma balanced_drags_end_at_rest_witness :
  Ui.drags Ui.atRest
    [ Ui.DragEnter true; Ui.DragOver; Ui.DragEnter false; Ui.DragLeave;
      Ui.DragLeave ]
  = Ui.atRest.
Proof.
  apply (balanced_drags_end_at_rest
           (Ui.DragEnter true
            :: [Ui.DragOver; Ui.DragEnter false; Ui.DragLeave]
            ++ Ui.DragLeave :: [])).
  apply nested_pair; [|apply nested_nil].
  apply nested_over.
  apply (nested_pair false [] []); apply nested_nil.
Defined.
